(** * youtube_dl_gui/dlthread.py: the download manager and its worker pool

    A shallow embedding of [DownloadManager] and [Worker].  Both classes are
    threads; a third thread, the GUI, calls [stop_downloads] and [add_url].
    The embedding is an interleaving semantics: every thread has a program
    counter naming the source line it is about to execute, and one step of
    the system executes one statement of one thread (a test, an assignment,
    a call of an external collaborator); the statements of [Worker.download]
    and [Worker.close] are steps of the thread that calls them, and the
    augmented assignment of line 83, which every worker runs on the one
    manager, is two steps, its read and its store.  What the
    external collaborators do (the downloader's return code, the
    dictionaries it hands to the progress callback, the scheduler's choice
    of thread) is carried by the label of the step.  The GUI is one thread:
    its calls do not overlap each other. *)

From Stdlib Require Import ZArith String List Bool Lia.
From stdpp Require Import base option list gmap strings.

Set Warnings "-clear-no-such-hyp".

Local Open Scope Z_scope.
Local Open Scope string_scope.
Local Open Scope list_scope.

(** ** Python values and dictionaries *)

(** The values found in the dictionaries this module handles. *)
Inductive pyval :=
| PyNone
| PyStr (s : string)
| PyInt (z : Z).

#[global] Instance pyval_eq_dec : EqDecision pyval.
Proof. solve_decision. Defined.

Inductive exn :=
| KeyError (key : string)
| TypeError.

#[global] Instance exn_eq_dec : EqDecision exn.
Proof. solve_decision. Defined.

(** Outcome of a piece of Python code: a value or a raised exception. *)
Inductive result (A : Type) :=
| Ok (a : A)
| Raise (e : exn).
Arguments Ok {A} a.
Arguments Raise {A} e.

#[global] Instance result_ret : MRet result := fun A a => Ok a.

#[global] Instance result_bind : MBind result := fun A B k r =>
  match r with
  | Ok a => k a
  | Raise e => Raise e
  end.

(** [d[key]] *)
Definition getitem (d : gmap string pyval) (key : string) : result pyval :=
  match d !! key with
  | Some v => Ok v
  | None => Raise (KeyError key)
  end.

(** [a + b] (and [a += b]) on the values above: strings concatenate, integers
    add, anything else raises [TypeError]. *)
Definition py_add (a b : pyval) : result pyval :=
  match a, b with
  | PyStr x, PyStr y => Ok (PyStr (x +:+ y))
  | PyInt x, PyInt y => Ok (PyInt (x + y))
  | _, _ => Raise TypeError
  end.

(** [v is not None] *)
Definition is_not_None (v : pyval) : bool :=
  match v with
  | PyNone => false
  | _ => true
  end.

(** ** Items and return codes *)

(** An entry of [urls_list]: a dictionary with the two keys [url] and [index]
    (docstring of [DownloadManager]). *)
Record item := Item { url : string; index : Z }.

#[global] Instance item_eq_dec : EqDecision item.
Proof. solve_decision. Defined.

(** Modelled from the spec: the return codes of [YoutubeDLDownloader], a class
    of the [downloaders] module.  [Worker.run] compares the code with
    [YoutubeDLDownloader.OK] and [YoutubeDLDownloader.ALREADY]; the spec lists
    OK, ALREADY_EXISTS, ERROR, WARNING, STOPPED and leaves the list open. *)
Inductive ret_code :=
| OK
| ALREADY
| ERROR
| WARNING
| STOPPED
| OtherCode (n : nat).

#[global] Instance ret_code_eq_dec : EqDecision ret_code.
Proof. solve_decision. Defined.

(** ** The Worker object *)

Module Worker.

Record t := Build {
  _running : bool;
  _url : option string;
  _index : Z
}.

(** [__init__], lines 231-233. *)
Definition __init__ : t :=
  {| _running := true; _url := None; _index := -1 |}.

(** [available], line 275. *)
Definition available (self : t) : bool :=
  match _url self with
  | None => true
  | Some _ => false
  end.

(** [_talk_to_gui], lines 301-302: stores the index in the dictionary and
    posts that dictionary; the value returned here is both the dictionary
    after the call and the message posted. *)
Definition _talk_to_gui (self : t) (data : gmap string pyval)
  : gmap string pyval :=
  <["index" := PyInt (_index self)]> data.

(** Lines 290-293: the local [playlist_info]. *)
Definition playlist_info (data : gmap string pyval) : result pyval :=
  pi ← Ok (PyStr " ");
  a ← getitem data "playlist_index";
  pi ← py_add pi a;
  pi ← py_add pi (PyStr "/");
  b ← getitem data "playlist_size";
  py_add pi b.

(** The test of line 289; [and] does not evaluate its right operand when
    the left one is false. *)
Definition has_playlist (data : gmap string pyval) : result bool :=
  st ← getitem data "status";
  if is_not_None st then
    pidx ← getitem data "playlist_index";
    Ok (is_not_None pidx)
  else Ok false.

(** [_data_hook], lines 289-297. *)
Definition _data_hook (self : t) (data : gmap string pyval)
  : result (gmap string pyval) :=
  c ← has_playlist data;
  if (c : bool) then
    pi ← playlist_info data;
    st ← getitem data "status";
    st' ← py_add st pi;
    Ok (_talk_to_gui self (<["status" := st']> data))
  else
    Ok (_talk_to_gui self data).

(** [download], lines 261 and 262, one statement each. *)
Definition download_url (self : t) (it : item) : t :=
  {| _running := _running self; _url := Some (url it); _index := _index self |}.

Definition download_index (self : t) (it : item) : t :=
  {| _running := _running self; _url := _url self; _index := index it |}.

Definition download (self : t) (it : item) : t :=
  download_index (download_url self it) it.

(** [close], line 270 (line 271 asks the downloader to stop). *)
Definition close (self : t) : t :=
  {| _running := false; _url := _url self; _index := _index self |}.

(** The reset of line 248. *)
Definition reset (self : t) : t :=
  {| _running := _running self; _url := None; _index := _index self |}.

End Worker.

(** The test of lines 243-244. *)
Definition is_success (rc : ret_code) : bool :=
  bool_decide (rc = OK) || bool_decide (rc = ALREADY).

(** ** Threads

    A program counter names the statement a thread executes next. *)

(** The thread of a [Worker], lines 238-250. *)
Inductive wpc :=
| WWhile                        (* 238: while self._running *)
| WIf                           (* 239: if self._url is not None *)
| WParse                        (* 240-241: parse the options, read self._url, call the downloader *)
| WDownload (u : option string) (* inside self._downloader.download(u, options) *)
| WRetCode (rc : ret_code)      (* 243-244: test of ret_code *)
| WIncrease                     (* 245, 83: increase_succ() reads self._successful *)
| WStore (v : Z)                (* 83: the sum is stored in self._successful *)
| WReset                        (* 248: self._url = None *)
| WSleep                        (* 250: time.sleep *)
| WExit                         (* run() has returned *)
| WRaised (e : exn).            (* run() was left by an exception *)

Record wthread := WThread { w_self : Worker.t; w_pc : wpc }.

(** A thread that is no longer alive: [join] returns for it. *)
Definition ended (p : wpc) : bool :=
  match p with
  | WExit | WRaised _ => true
  | _ => false
  end.

(** The thread of the [DownloadManager], lines 86-109, with the body of
    [Worker.download] (261, 262) and of [Worker.close] (270, 271) inlined at
    their calls. *)
Inductive mpc :=
| MCheck                          (* 86: self._check_youtubedl() *)
| MStart                          (* 87: self._time_it_took = time.time() *)
| MWhile                          (* 89: while self._running *)
| MFor (i : nat)                  (* 90-91: next worker; test of line 91 *)
| MPop (i : nat)                  (* 92: self.urls_list.pop(0), call download *)
| MSetUrl (i : nat) (it : item)   (* 261: self._url = item['url'] *)
| MSetIndex (i : nat) (it : item) (* 262: self._index = item['index'] *)
| MSleep                          (* 94: time.sleep *)
| MBreak                          (* 96: test of the break *)
| MClose (i : nat)                (* 100, 270: next worker; self._running = False *)
| MCloseStop (i : nat)            (* 271: self._downloader.stop() *)
| MJoin (i : nat)                 (* 102: worker.join() *)
| MElapsed                        (* 104: self._time_it_took = time.time() - ... *)
| MSignal                         (* 106: test of self._running *)
| MEmit (sig : string)            (* 107 or 109: self._talk_to_gui(sig) *)
| MDone                           (* run() has returned *)
| MRaised.                        (* run() was left by the IndexError of pop *)

#[global] Instance mpc_eq_dec : EqDecision mpc.
Proof. solve_decision. Defined.

(** The GUI thread, inside a call of [stop_downloads] or between calls. *)
Inductive cpc :=
| CIdle
| CStopRunning                    (* 135: self._running = False *)
| CStopFor (i : nat).             (* 136-137: next worker; worker.stop_download() *)

(** What the system does that is visible outside a thread.  The [EvSignal]
    and [EvStatus] events are the [CallAfter] posts, in the order of the
    calls; the others record assignments, resets, downloader returns, stop
    requests and additions to the list. *)
Inductive event :=
| EvSignal (sig : string)
| EvStatus (i : nat) (msg : gmap string pyval)
| EvAssign (i : nat) (it : item)
| EvIndex (i : nat) (it : item)
| EvOutcome (i : nat) (rc : ret_code)
| EvReset (i : nat)
| EvStopReq (i : nat)
| EvAdd (it : item).

(** The [DownloadManager] object, the threads, the clock and the events so
    far (newest first). *)
Record state := State {
  urls_list : list item;
  _time_it_took : Z;
  _successful : Z;
  _running : bool;
  _workers : list wthread;
  m_pc : mpc;
  c_pc : cpc;
  clock : Z;
  trace : list event
}.

Definition with_urls (l : list item) (s : state) : state :=
  State l (_time_it_took s) (_successful s) (_running s) (_workers s)
        (m_pc s) (c_pc s) (clock s) (trace s).
Definition with_time (t : Z) (s : state) : state :=
  State (urls_list s) t (_successful s) (_running s) (_workers s)
        (m_pc s) (c_pc s) (clock s) (trace s).
Definition with_successful (n : Z) (s : state) : state :=
  State (urls_list s) (_time_it_took s) n (_running s) (_workers s)
        (m_pc s) (c_pc s) (clock s) (trace s).
Definition with_running (b : bool) (s : state) : state :=
  State (urls_list s) (_time_it_took s) (_successful s) b (_workers s)
        (m_pc s) (c_pc s) (clock s) (trace s).
Definition with_worker (i : nat) (w : wthread) (s : state) : state :=
  State (urls_list s) (_time_it_took s) (_successful s) (_running s)
        (<[i := w]> (_workers s)) (m_pc s) (c_pc s) (clock s) (trace s).
Definition with_mpc (p : mpc) (s : state) : state :=
  State (urls_list s) (_time_it_took s) (_successful s) (_running s)
        (_workers s) p (c_pc s) (clock s) (trace s).
Definition with_cpc (p : cpc) (s : state) : state :=
  State (urls_list s) (_time_it_took s) (_successful s) (_running s)
        (_workers s) (m_pc s) p (clock s) (trace s).
Definition with_clock (t : Z) (s : state) : state :=
  State (urls_list s) (_time_it_took s) (_successful s) (_running s)
        (_workers s) (m_pc s) (c_pc s) t (trace s).
Definition emit (e : event) (s : state) : state :=
  State (urls_list s) (_time_it_took s) (_successful s) (_running s)
        (_workers s) (m_pc s) (c_pc s) (clock s) (e :: trace s).

(** ** The DownloadManager *)

Definition WORKERS_NUMBER : nat := 3.

(** [_init_workers], line 196, for a pool of [n] workers; a [Worker] starts
    its thread in its constructor (line 235). *)
Definition _init_workers (n : nat) : list wthread :=
  replicate n (WThread Worker.__init__ WWhile).

(** [DownloadManager.__init__], lines 59-66, with [WORKERS_NUMBER = n]. *)
Definition __init__ (n : nat) (urls : list item) : state :=
  {| urls_list := urls; _time_it_took := 0; _successful := 0;
     _running := true; _workers := _init_workers n;
     m_pc := MCheck; c_pc := CIdle; clock := 0; trace := [] |}.

(** [increase_succ], line 83.  [self._successful += 1] reads the attribute,
    adds one and stores the sum; every worker calls it on the one manager
    (line 196), without a lock, so the thread of another worker can run
    between the read and the store. *)
Definition increase_succ_read (s : state) : Z := _successful s.

Definition increase_succ_store (v : Z) (s : state) : state :=
  with_successful (v + 1) s.

(** A call that no other thread interrupts. *)
Definition increase_succ (s : state) : state :=
  increase_succ_store (increase_succ_read s) s.

(** [add_url], line 148. *)
Definition add_url (it : item) (s : state) : state :=
  with_urls (urls_list s ++ [it]) s.

(** [DownloadManager._talk_to_gui], line 164. *)
Definition _talk_to_gui (data : string) (s : state) : state :=
  emit (EvSignal data) s.

(** [_jobs_done], lines 176-180. *)
Definition _jobs_done (s : state) : bool :=
  forallb (fun w => Worker.available (w_self w)) (_workers s).

(** Truth value of a list. *)
Definition truthy {A} (l : list A) : bool :=
  match l with
  | [] => false
  | _ :: _ => true
  end.

(** One statement of [DownloadManager.run].  The tests of lines 91 and 96
    read the workers and the list in one step; [join] blocks while the
    worker's thread is alive. *)
Definition manager_step (s : state) : option state :=
  match m_pc s with
  | MCheck => Some (with_mpc MStart s)
  | MStart => Some (with_mpc MWhile (with_time (clock s) s))
  | MWhile => Some (with_mpc (if _running s then MFor 0 else MClose 0) s)
  | MFor i =>
      match _workers s !! i with
      | None => Some (with_mpc MSleep s)
      | Some w =>
          if Worker.available (w_self w) && truthy (urls_list s)
          then Some (with_mpc (MPop i) s)
          else Some (with_mpc (MFor (S i)) s)
      end
  | MPop i =>
      match urls_list s with
      | [] => Some (with_mpc MRaised s)
      | it :: rest => Some (with_mpc (MSetUrl i it) (with_urls rest s))
      end
  | MSetUrl i it =>
      w ← _workers s !! i;
      Some (with_mpc (MSetIndex i it)
             (emit (EvAssign i it)
               (with_worker i (WThread (Worker.download_url (w_self w) it) (w_pc w)) s)))
  | MSetIndex i it =>
      w ← _workers s !! i;
      Some (with_mpc (MFor (S i))
             (emit (EvIndex i it)
               (with_worker i (WThread (Worker.download_index (w_self w) it) (w_pc w)) s)))
  | MSleep => Some (with_mpc MBreak s)
  | MBreak =>
      Some (with_mpc (if negb (truthy (urls_list s)) && _jobs_done s
                      then MClose 0 else MWhile) s)
  | MClose i =>
      match _workers s !! i with
      | None => Some (with_mpc MElapsed s)
      | Some w =>
          Some (with_mpc (MCloseStop i)
                 (with_worker i (WThread (Worker.close (w_self w)) (w_pc w)) s))
      end
  | MCloseStop i => Some (with_mpc (MJoin i) (emit (EvStopReq i) s))
  | MJoin i =>
      w ← _workers s !! i;
      if ended (w_pc w) then Some (with_mpc (MClose (S i)) s) else None
  | MElapsed => Some (with_mpc MSignal (with_time (clock s - _time_it_took s) s))
  | MSignal =>
      Some (with_mpc (MEmit (if negb (_running s) then "closed" else "finished")) s)
  | MEmit sig => Some (with_mpc MDone (_talk_to_gui sig s))
  | MDone | MRaised => None
  end.

(** One statement of [Worker.run] in the thread of worker [i]; inside the
    downloader the thread moves by [hook_step] and [return_step]. *)
Definition worker_step (i : nat) (s : state) : option state :=
  w ← _workers s !! i;
  let goto p := Some (with_worker i (WThread (w_self w) p) s) in
  match w_pc w with
  | WWhile => goto (if Worker._running (w_self w) then WIf else WExit)
  | WIf => goto (if negb (Worker.available (w_self w)) then WParse else WSleep)
  | WParse => goto (WDownload (Worker._url (w_self w)))
  | WDownload _ => None
  | WRetCode rc => goto (if is_success rc then WIncrease else WReset)
  | WIncrease => goto (WStore (increase_succ_read s))
  | WStore v =>
      Some (with_worker i (WThread (w_self w) WReset) (increase_succ_store v s))
  | WReset =>
      Some (emit (EvReset i)
             (with_worker i (WThread (Worker.reset (w_self w)) WSleep) s))
  | WSleep => goto WWhile
  | WExit | WRaised _ => None
  end.

(** The downloader of worker [i] calls the progress callback with [data].
    When the callback raises, [propagate] tells whether the downloader lets
    the exception through (it then leaves [run]) or swallows it. *)
Definition hook_step (i : nat) (data : gmap string pyval) (propagate : bool)
    (s : state) : option state :=
  w ← _workers s !! i;
  match w_pc w with
  | WDownload _ =>
      match Worker._data_hook (w_self w) data with
      | Ok msg => Some (emit (EvStatus i msg) s)
      | Raise e =>
          if propagate
          then Some (with_worker i (WThread (w_self w) (WRaised e)) s)
          else Some s
      end
  | _ => None
  end.

(** The downloader of worker [i] returns [rc]. *)
Definition return_step (i : nat) (rc : ret_code) (s : state) : option state :=
  w ← _workers s !! i;
  match w_pc w with
  | WDownload _ =>
      Some (emit (EvOutcome i rc) (with_worker i (WThread (w_self w) (WRetCode rc)) s))
  | _ => None
  end.

(** The GUI thread enters [stop_downloads]: line 134. *)
Definition stop_call (s : state) : option state :=
  match c_pc s with
  | CIdle => Some (with_cpc CStopRunning (_talk_to_gui "closing" s))
  | _ => None
  end.

(** The next statement of the [stop_downloads] call in progress. *)
Definition caller_step (s : state) : option state :=
  match c_pc s with
  | CIdle => None
  | CStopRunning => Some (with_cpc (CStopFor 0) (with_running false s))
  | CStopFor i =>
      match _workers s !! i with
      | None => Some (with_cpc CIdle s)
      | Some _ => Some (with_cpc (CStopFor (S i)) (emit (EvStopReq i) s))
      end
  end.

(** The GUI thread calls [add_url]. *)
Definition add_call (it : item) (s : state) : option state :=
  match c_pc s with
  | CIdle => Some (emit (EvAdd it) (add_url it s))
  | _ => None
  end.

(** ** The system *)

Inductive label :=
| LManager
| LWorker (i : nat)
| LHook (i : nat) (data : gmap string pyval) (propagate : bool)
| LReturn (i : nat) (rc : ret_code)
| LStop
| LCaller
| LAdd (it : item)
| LTick (d : nat).

(** One step; [None] when the thread named by the label cannot move (it is
    blocked, has ended, or is not where the label needs it). *)
Definition step (l : label) (s : state) : option state :=
  match l with
  | LManager => manager_step s
  | LWorker i => worker_step i s
  | LHook i data propagate => hook_step i data propagate s
  | LReturn i rc => return_step i rc s
  | LStop => stop_call s
  | LCaller => caller_step s
  | LAdd it => add_call it s
  | LTick d => Some (with_clock (clock s + Z.of_nat d) s)
  end.

Fixpoint run (ls : list label) (s : state) : option state :=
  match ls with
  | [] => Some s
  | l :: ls' =>
      match step l s with
      | Some s' => run ls' s'
      | None => None
      end
  end.

(** The states the system can be in, for a pool of [n] workers and an
    initial list [urls]. *)
Definition reachable (n : nat) (urls : list item) (s : state) : Prop :=
  exists ls, run ls (__init__ n urls) = Some s.

(** A step that is not a call of [stop_downloads] or [add_url]. *)
Definition gui_free (l : label) : bool :=
  match l with
  | LStop | LCaller | LAdd _ => false
  | _ => true
  end.

(** [active], lines 116-123, which the GUI thread calls.  The loop of line
    117 reads one worker at each iteration and line 121 reads the list; no
    lock is held, so the other threads run between these reads.  [sched]
    gives, for each read, the steps they take before it; [i] is the worker
    the loop comes to next.  The result is the value returned and the state
    at the return. *)
Fixpoint active_loop (sched : list (list label)) (i counter : nat) (s : state)
  : option (nat * state) :=
  match sched with
  | [] => None
  | ls :: sched' =>
      s' ← run ls s;
      match _workers s' !! i with
      | Some w =>
          active_loop sched' (S i)
            (if Worker.available (w_self w) then counter else S counter) s'
      | None => Some ((counter + length (urls_list s'))%nat, s')
      end
  end.

(** The GUI thread is inside [active]: it is in no other call, and the
    steps of [sched] are not its own. *)
Definition active (sched : list (list label)) (s : state)
  : option (nat * state) :=
  match c_pc s with
  | CIdle =>
      if forallb (forallb gui_free) sched then active_loop sched 0 0 s
      else None
  | _ => None
  end.

(** ** Runs *)

Lemma run_app ls1 ls2 s :
  run (ls1 ++ ls2) s = s1 ← run ls1 s; run ls2 s1.
Proof.
  revert s. induction ls1 as [|l ls1 IH]; intros s; simpl; [done|].
  destruct (step l s); simpl; [apply IH | done].
Qed.

Lemma run_snoc ls l s s1 s2 :
  run ls s = Some s1 -> step l s1 = Some s2 -> run (ls ++ [l]) s = Some s2.
Proof. intros H1 H2. rewrite run_app, H1. simpl. by rewrite H2. Qed.


Lemma reachable_step n urls l s s' :
  reachable n urls s -> step l s = Some s' -> reachable n urls s'.
Proof. intros [ls H] Hs. exists (ls ++ [l]). by eapply run_snoc. Qed.

Lemma reachable_run n urls ls s s' :
  reachable n urls s -> run ls s = Some s' -> reachable n urls s'.
Proof.
  intros [ls0 H] Hs. exists (ls0 ++ ls). rewrite run_app, H. exact Hs.
Qed.

(** Induction over the reachable states. *)
Lemma reachable_ind n urls (P : state -> Prop) :
  P (__init__ n urls) ->
  (forall l s s', reachable n urls s -> P s -> step l s = Some s' -> P s') ->
  forall s, reachable n urls s -> P s.
Proof.
  intros H0 Hstep s [ls Hrun]. revert s Hrun.
  induction ls as [|l ls IH] using rev_ind; intros s Hrun.
  - simpl in Hrun. by simplify_eq.
  - rewrite run_app in Hrun.
    destruct (run ls (__init__ n urls)) as [s1|] eqn:E1; simpl in Hrun; [|done].
    destruct (step l s1) as [s2|] eqn:E2; simpl in Hrun; [|done].
    simplify_eq. eapply Hstep; [by exists ls | by apply IH | exact E2].
Qed.

(** Case analysis on a step: one goal per statement of the program. *)
Ltac step_cases H :=
  match type of H with
  | step ?l ?s = Some ?s' =>
      destruct l; cbn [step] in H;
      unfold manager_step, worker_step, hook_step, return_step,
             stop_call, caller_step, add_call in H;
      repeat match type of H with
        | context [match ?x with _ => _ end] =>
            match x with
            | context [match _ with _ => _ end] => fail 1
            | _ => let E := fresh "E" in destruct x eqn:E; cbn [mbind option_bind] in H
            end
        | context [mbind _ ?x] => let E := fresh "E" in destruct x eqn:E; cbn [mbind option_bind] in H
        end;
      try discriminate H;
      apply (inj Some) in H; subst s'
  end.

Lemma workers_length n urls s :
  reachable n urls s -> length (_workers s) = n.
Proof.
  revert s. apply reachable_ind.
  - simpl. unfold _init_workers. by rewrite length_replicate.
  - intros l s s' _ IH H. step_cases H; simpl; rewrite ?length_insert; done.
Qed.

(** ** Structural invariants *)

(** The program counters at which a worker thread holds an assignment. *)
Definition busy_pc (p : wpc) : bool :=
  match p with
  | WParse | WDownload _ | WRetCode _ | WIncrease | WStore _ | WReset => true
  | _ => false
  end.

Definition idle_at (s : state) (i : nat) : Prop :=
  exists w, _workers s !! i = Some w /\ Worker.available (w_self w) = true.

(** Where the manager thread is inside a dispatch, the worker it dispatches
    to is idle; a worker thread inside an iteration holds an assignment. *)
Definition dispatch_ok (s : state) : Prop :=
  match m_pc s with
  | MPop i => urls_list s <> [] /\ idle_at s i
  | MSetUrl i _ => idle_at s i
  | MSetIndex i _ => is_Some (_workers s !! i)
  | MRaised => False
  | _ => True
  end.

Definition workers_ok (s : state) : Prop :=
  forall j w, _workers s !! j = Some w ->
    busy_pc (w_pc w) = true -> Worker.available (w_self w) = false.

Lemma lookup_with (l : list wthread) i j w x :
  l !! i = Some w ->
  <[i := x]> l !! j = if decide (i = j) then Some x else l !! j.
Proof.
  intros H. rewrite list_lookup_insert.
  apply lookup_lt_Some in H.
  destruct (decide (i = j)), (decide (i = j /\ (i < length l)%nat)); naive_solver.
Qed.

Ltac upd :=
  repeat match goal with
    | E : ?l !! ?i = Some ?w |- context [<[?i := ?x]> ?l !! ?j] =>
        rewrite (lookup_with l i j w x E)
    | E : ?l !! ?i = Some ?w, H : context [<[?i := ?x]> ?l !! ?j] |- _ =>
        rewrite (lookup_with l i j w x E) in H
    end;
  repeat match goal with
    | |- context [decide ?P] => destruct (decide P)
    | H : context [decide ?P] |- _ => destruct (decide P)
    end;
  simplify_eq.

Ltac bools :=
  repeat match goal with
    | H : _ && _ = true |- _ => apply andb_true_iff in H as [? ?]
    | H : negb _ = true |- _ => apply negb_true_iff in H
    | H : negb _ = false |- _ => apply negb_false_iff in H
    end.


Lemma truthy_nonempty {A} (l : list A) : truthy l = true -> l <> [].
Proof. by destruct l. Qed.


(** After [step_cases]: fixes the manager's program counter in the goal and
    in the hypotheses given. *)
Ltac at_mpc s :=
  first [ match goal with E : m_pc s = _ |- _ => rewrite ?E in * end
        | destruct (m_pc s) eqn:? ].


Ltac unfold_worker :=
  unfold Worker.available, Worker.download, Worker.download_index,
    Worker.download_url, Worker.close, Worker.reset in *; simpl in *.

Lemma wf_reachable n urls s :
  reachable n urls s -> dispatch_ok s /\ workers_ok s.
Proof.
  revert s. apply reachable_ind.
  - split; [done|].
    intros j w H. apply lookup_replicate_1 in H as [-> _]. done.
  - intros l s s' _ [Hm Hw] H. unfold dispatch_ok, workers_ok, idle_at in *.
    step_cases H; simpl; (split; [at_mpc s|intros j' w' Hj Hb]); 
      simpl in *; try done; destruct_and?; upd; bools; simpl in *;
      try (by eauto);
      try (split; [by eauto using truthy_nonempty|by eauto]);
      try (eapply Hw; [eassumption|];
           by match goal with E : w_pc _ = _ |- _ => rewrite E end);
      unfold_worker;
      try (naive_solver eauto using app_cons_not_nil, truthy_nonempty).
    split; [by destruct (urls_list s)|done].
Qed.

(** ** Shutdown of the pool *)

(** A worker the manager has closed and joined. *)
Definition joined (w : wthread) : Prop :=
  ended (w_pc w) = true /\ Worker._running (w_self w) = false.

(** Worker [j] has been closed, asked to stop, and joined. *)
Definition shut (s : state) (j : nat) : Prop :=
  forall w, _workers s !! j = Some w -> EvStopReq j ∈ trace s /\ joined w.

Definition closed_at (s : state) (i : nat) : Prop :=
  exists w, _workers s !! i = Some w /\ Worker._running (w_self w) = false.

Definition cleanup_ok (s : state) : Prop :=
  match m_pc s with
  | MClose i => forall j, (j < i)%nat -> shut s j
  | MCloseStop i =>
      (forall j, (j < i)%nat -> shut s j) /\ closed_at s i
  | MJoin i =>
      (forall j, (j < i)%nat -> shut s j) /\ EvStopReq i ∈ trace s /\
      closed_at s i
  | MElapsed | MSignal | MEmit _ | MDone => forall j, shut s j
  | _ => True
  end.


Lemma trace_step l s s' e :
  step l s = Some s' -> e ∈ trace s -> e ∈ trace s'.
Proof.
  intros H He. step_cases H; simpl; try done; by (apply elem_of_cons; right).
Qed.

Lemma closed_at_step l s s' i :
  step l s = Some s' -> closed_at s i -> closed_at s' i.
Proof.
  intros H (w & Hw & Hr). unfold closed_at.
  step_cases H; simpl; upd; eauto.
Qed.

Lemma shut_step l s s' j : step l s = Some s' -> shut s j -> shut s' j.
Proof.
  intros H Hj w'. pose proof (fun e => trace_step _ _ _ e H) as Htrace.
  unfold shut, joined in *.
  step_cases H; simpl in *; intros Hw'; upd; eauto;
    match goal with
    | E : _workers _ !! ?i = Some ?w |- _ =>
        destruct (Hj _ E) as (Ht & He & Hr); simpl; try (by auto);
        by match goal with E' : w_pc w = _ |- _ => rewrite E' in He end
    end.
Qed.

Lemma cleanup_reachable n urls s : reachable n urls s -> cleanup_ok s.
Proof.
  revert s. apply reachable_ind; [done|].
  intros l s s' _ Hm H.
  pose proof (fun j => shut_step _ _ _ j H) as Hshut.
  pose proof (fun j => closed_at_step _ _ _ j H) as Hclosed.
  pose proof (fun e => trace_step _ _ _ e H) as Htrace.
  unfold cleanup_ok in *.
  step_cases H; simpl; at_mpc s; try done; try by naive_solver.
  - intros j Hj. lia.
  - intros j Hj. lia.
  - split; [by auto|]. exists (WThread (Worker.close (w_self w)) (w_pc w)).
    simpl. by rewrite list_lookup_insert_eq by (by eapply lookup_lt_Some).
  - intros j. destruct (decide (j < i)%nat) as [Hlt|Hge]; [by auto|].
    intros w' Hw'. simpl in Hw'. apply lookup_lt_Some in Hw'.
    apply lookup_ge_None in E0. lia.
  - destruct Hm as [Hm1 Hm2]. split_and!; [by auto| by left | by auto].
  - destruct Hm as (Hm1 & Hm2 & w' & Hw' & Hr). intros j Hj.
    destruct (decide (j = i)) as [->|Hne]; [|apply Hshut, Hm1; lia].
    intros w0 Hw0. simpl in Hw0. by simplify_eq.
Qed.

(** ** What the trace records *)

(** The events in the order they happened. *)
Definition history (s : state) : list event := reverse (trace s).

Definition signal_of (e : event) : option string :=
  match e with EvSignal sig => Some sig | _ => None end.
Definition assign_of (e : event) : option item :=
  match e with EvAssign _ it => Some it | _ => None end.
Definition add_of (e : event) : option item :=
  match e with EvAdd it => Some it | _ => None end.
Definition outcome_of (e : event) : option ret_code :=
  match e with EvOutcome _ rc => Some rc | _ => None end.

(** The lifecycle signals posted by the manager, oldest first. *)
Definition signals (s : state) : list string := omap signal_of (history s).
(** The items handed to a worker, in the order of the assignments. *)
Definition dispatched (s : state) : list item := omap assign_of (history s).
(** The items given to [add_url], in the order of the calls. *)
Definition added (s : state) : list item := omap add_of (history s).
(** The return codes of the downloads that have returned, oldest first. *)
Definition outcomes (s : state) : list ret_code := omap outcome_of (history s).

Definition terminal (sig : string) : Prop := sig = "closed" \/ sig = "finished".

#[global] Instance terminal_dec sig : Decision (terminal sig).
Proof. unfold terminal. apply _. Defined.

Definition terminal_signals (s : state) : list string :=
  filter terminal (signals s).

Lemma history_emit e s : history (emit e s) = history s ++ [e].
Proof. unfold history. simpl. by rewrite reverse_cons. Qed.

(** Rewrites the projections of a trace extended by one event. *)
Ltac hist :=
  unfold terminal_signals, signals, dispatched, added, outcomes, history in *;
  simpl trace in *;
  rewrite ?reverse_cons, ?omap_app, ?filter_app in *; simpl omap in *;
  rewrite ?app_nil_r in *.

(** ** The terminal signal *)

(** No terminal signal is posted before the manager's thread ends, and one
    when it does. *)
Definition terminal_ok (s : state) : Prop :=
  match m_pc s with
  | MDone => exists sig, terminal sig /\ terminal_signals s = [sig]
  | MEmit sig => terminal sig /\ terminal_signals s = []
  | _ => terminal_signals s = []
  end.

Lemma filter_terminal_one sig : terminal sig -> filter terminal [sig] = [sig].
Proof. intros H. by rewrite filter_cons_True. Qed.

Lemma terminal_reachable n urls s : reachable n urls s -> terminal_ok s.
Proof.
  revert s. apply reachable_ind; [done|].
  intros l s s' _ Hm H. unfold terminal_ok in *.
  step_cases H; simpl; at_mpc s; try done; hist; try done.
  - split; [by left|done].
  - split; [by right|done].
  - destruct Hm as [Ht ->]. exists sig. by rewrite filter_terminal_one.
Qed.

(** Once the signal is settled it stays so: [settled sig s] holds from the
    point where the manager can only post [sig]: after the test of line 106
    chose [sig], or earlier for [closed], once [_running] is false. *)
Definition settled (sig : string) (s : state) : Prop :=
  match m_pc s with
  | MDone => terminal_signals s = [sig]
  | MEmit x => x = sig /\ terminal sig /\ terminal_signals s = []
  | MRaised => True
  | _ => sig = "closed" /\ _running s = false /\ terminal_signals s = []
  end.

Lemma settled_step sig l s s' :
  step l s = Some s' -> settled sig s -> settled sig s'.
Proof.
  intros H Hm. unfold settled in *.
  step_cases H; simpl; at_mpc s; try done; hist; try done;
    try (destruct_and?; simplify_eq; split_and?; by first [done|left]).
  - destruct Hm as (_ & Hr & _). by rewrite Hr in *.
  - destruct Hm as (-> & Ht & ->). by rewrite filter_terminal_one.
Qed.

Lemma settled_run sig ls s s' :
  run ls s = Some s' -> settled sig s -> settled sig s'.
Proof.
  revert s. induction ls as [|l ls IH]; intros s H Hs; simpl in H.
  - by simplify_eq.
  - destruct (step l s) as [s1|] eqn:E; [|done].
    eapply IH; [done|]. by eapply settled_step.
Qed.

(** The program counters before the test of line 106. *)
Definition before_signal (p : mpc) : bool :=
  match p with
  | MEmit _ | MDone | MRaised => false
  | _ => true
  end.

Lemma settled_closed n urls s :
  reachable n urls s -> before_signal (m_pc s) = true -> _running s = false ->
  settled "closed" s.
Proof.
  intros Hr Hb Hf. apply terminal_reachable in Hr.
  unfold settled, terminal_ok in *. by destruct (m_pc s).
Qed.

Lemma settled_test n urls s s' :
  reachable n urls s -> m_pc s = MSignal -> step LManager s = Some s' ->
  settled (if _running s then "finished" else "closed") s'.
Proof.
  intros Hr Hpc H. apply terminal_reachable in Hr.
  unfold settled, terminal_ok in *. simpl in H. unfold manager_step in H.
  rewrite Hpc in *. simplify_eq. simpl. hist.
  destruct (_running s); simpl; split_and!; try done.
  all: first [by left|by right].
Qed.

(** ** Order of dispatch *)

(** The item the manager has popped and not yet stored in a worker. *)
Definition in_hand (s : state) : list item :=
  match m_pc s with
  | MSetUrl _ it => [it]
  | _ => []
  end.

Lemma fifo_reachable n urls s :
  reachable n urls s ->
  urls ++ added s = dispatched s ++ in_hand s ++ urls_list s.
Proof.
  revert s. apply reachable_ind.
  - simpl. by rewrite app_nil_r.
  - intros l s s' _ Hm H. unfold in_hand in *.
    step_cases H; simpl; at_mpc s; try done; hist; try done.
    all: simpl in *; rewrite ?app_assoc; rewrite ?app_assoc in Hm;
      try rewrite Hm; simpl; rewrite <- ?app_assoc; try done.
    by rewrite E0, app_nil_r.
Qed.

(** The [k]-th assignment hands out the [k]-th item of the list as it was
    extended by [add_url]. *)
Lemma dispatched_lookup n urls s k a :
  reachable n urls s ->
  dispatched s !! k = Some a -> (urls ++ added s) !! k = Some a.
Proof.
  intros Hr Hk. rewrite (fifo_reachable _ _ _ Hr).
  by apply lookup_app_l_Some.
Qed.

Lemma dispatched_before n urls s j k a b :
  reachable n urls s -> (j < k)%nat ->
  (urls ++ added s) !! j = Some a -> dispatched s !! k = Some b ->
  dispatched s !! j = Some a.
Proof.
  intros Hr Hjk Hj Hk. rewrite (fifo_reachable _ _ _ Hr) in Hj.
  apply lookup_lt_Some in Hk.
  by rewrite lookup_app_l in Hj by lia.
Qed.


(** ** Success accounting *)

(** What a worker thread still owes to [_successful]: a download has
    returned a successful code and the store of line 83 has not run yet. *)
Definition owed (w : wthread) : Z :=
  match w_pc w with
  | WRetCode rc => if is_success rc then 1 else 0
  | WIncrease | WStore _ => 1
  | _ => 0
  end.

(** Sum of a quantity over the pool. *)
Definition tally (f : wthread -> Z) (ws : list wthread) : Z :=
  foldr (fun w acc => f w + acc) 0 ws.

Definition pending (ws : list wthread) : Z := tally owed ws.

(** The number of successful codes among the downloads that returned. *)
Definition successes (l : list ret_code) : Z :=
  Z.of_nat (length (filter (fun rc => is_success rc = true) l)).

(** The number of stores of line 83 so far. *)
Definition stored (s : state) : Z :=
  successes (outcomes s) - pending (_workers s).

Lemma tally_insert f ws i w w' :
  ws !! i = Some w -> tally f (<[i := w']> ws) = tally f ws - f w + f w'.
Proof.
  revert i. induction ws as [|x ws IH]; intros [|i] H; simpl in *; simplify_eq.
  - lia.
  - rewrite (IH _ H). lia.
Qed.

Lemma tally_replicate f k w : tally f (replicate k w) = Z.of_nat k * f w.
Proof. induction k as [|k IH]; simpl tally; [lia|]. rewrite IH. lia. Qed.

Lemma tally_bounds f ws :
  (forall w, 0 <= f w <= 1) -> 0 <= tally f ws <= Z.of_nat (length ws).
Proof.
  intros Hf. induction ws as [|x ws IH]; simpl; [lia|].
  specialize (Hf x). lia.
Qed.

Lemma successes_snoc l rc :
  successes (l ++ [rc]) = successes l + (if is_success rc then 1 else 0).
Proof.
  unfold successes. rewrite filter_app, length_app.
  rewrite filter_cons, filter_nil. destruct (is_success rc) eqn:E.
  - rewrite decide_True by done. simpl. lia.
  - rewrite decide_False by congruence. simpl. lia.
Qed.

(** What the counter can be, for any pool: every store writes one more than
    a value the counter had, so the counter is never more than the number of
    stores, and it is positive once there was a store. *)
Definition counter_ok (s : state) : Prop :=
  0 <= _successful s <= stored s /\
  (1 <= stored s -> 1 <= _successful s) /\
  forall j w v, _workers s !! j = Some w -> w_pc w = WStore v ->
    0 <= v <= stored s.

Lemma stored_step l s s' :
  step l s = Some s' ->
  stored s' = stored s \/
  (stored s' = stored s + 1 /\
   exists i w v, l = LWorker i /\ _workers s !! i = Some w /\ w_pc w = WStore v /\
                 _successful s' = v + 1).
Proof.
  intros H. unfold stored, pending.
  step_cases H; simpl; hist;
    try (erewrite tally_insert by eassumption); unfold owed; simpl;
    rewrite ?successes_snoc;
    repeat match goal with E : w_pc _ = _ |- _ => rewrite E end;
    repeat match goal with E : is_success _ = _ |- _ => rewrite E end;
    try (left; lia).
  right. split; [lia|]. by exists i, w, v.
Qed.

Lemma counter_reachable n urls s : reachable n urls s -> counter_ok s.
Proof.
  revert s. apply reachable_ind.
  - unfold counter_ok, stored, pending. simpl. unfold _init_workers.
    rewrite tally_replicate. unfold owed, successes. simpl.
    split_and!; try lia.
    intros j w v H. by apply lookup_replicate_1 in H as [-> _].
  - intros l s s' _ (Hc & Hp & Hv) H. unfold counter_ok.
    destruct (stored_step _ _ _ H) as [Hs|(Hs & i0 & w0 & v0 & -> & Hw0 & Hpc0 & Hv0)].
    + rewrite Hs.
      assert (_successful s' = _successful s) as ->.
      { revert Hs. unfold stored, pending.
        step_cases H; simpl; try done; hist.
        erewrite tally_insert by eassumption. unfold owed. simpl.
        rewrite E0. lia. }
      split; [done|]. split; [done|].
      intros j w' v. step_cases H; simpl; intros Hj Hpc; upd; simpl in *;
        simplify_eq; eauto; lia.
    + rewrite Hs, Hv0. specialize (Hv _ _ _ Hw0 Hpc0) as Hv1.
      split_and!; try lia.
      intros j w' v. simpl in H. unfold worker_step in H. rewrite Hw0 in H.
      simpl in H. rewrite Hpc0 in H. simplify_eq. simpl.
      intros Hj Hpc; upd; simpl in *; simplify_eq.
      specialize (Hv _ _ _ Hj Hpc). lia.
Qed.

(** With one worker no other thread runs line 83: a value read is still the
    value of the counter when it is stored, and nothing is lost. *)
Definition single_ok (s : state) : Prop :=
  _successful s + pending (_workers s) = successes (outcomes s) /\
  forall j w v, _workers s !! j = Some w -> w_pc w = WStore v ->
    v = _successful s.

Lemma single_reachable urls s : reachable 1 urls s -> single_ok s.
Proof.
  revert s. apply reachable_ind.
  - unfold single_ok, pending. simpl. split; [done|].
    intros j w v H. by apply lookup_replicate_1 in H as [-> _].
  - intros l s s' Hr (Hs & Hv) H. unfold single_ok, pending in *.
    pose proof (workers_length _ _ _ Hr) as Hlen.
    split.
    + step_cases H; simpl; try done; hist; try done;
        try (erewrite tally_insert by eassumption); unfold owed in *; simpl;
        rewrite ?successes_snoc;
        repeat match goal with E : w_pc _ = _ |- _ => rewrite E end;
        repeat match goal with E : is_success _ = _ |- _ => rewrite E end;
        try lia.
      rewrite (Hv _ _ _ E E0). lia.
    + intros j w' v. step_cases H; simpl; intros Hj Hpc; upd; simpl in *;
        simplify_eq; eauto.
      apply lookup_lt_Some in Hj, E. lia.
Qed.

Lemma pending_ended ws :
  (forall j w, ws !! j = Some w -> ended (w_pc w) = true) -> pending ws = 0.
Proof.
  unfold pending. induction ws as [|x ws IH]; intros H; simpl; [done|].
  rewrite IH by (intros j w Hj; exact (H (S j) w Hj)).
  specialize (H 0%nat x eq_refl). unfold owed. by destruct (w_pc x).
Qed.

(** The manager's thread has ended. *)
Definition finished_run (s : state) : Prop := m_pc s = MDone.

Lemma stored_final n urls s :
  reachable n urls s -> finished_run s -> stored s = successes (outcomes s).
Proof.
  intros Hr Hd. pose proof (cleanup_reachable _ _ _ Hr) as Hc.
  unfold cleanup_ok in Hc. rewrite Hd in Hc. unfold stored.
  rewrite pending_ended; [lia|].
  intros j w Hj. by destruct (Hc j w Hj) as (_ & ? & _).
Qed.

Lemma success_final urls s :
  reachable 1 urls s -> finished_run s ->
  _successful s = successes (outcomes s).
Proof.
  intros Hr Hd. destruct (single_reachable _ _ Hr) as [Hs _].
  pose proof (stored_final _ _ _ Hr Hd) as Hf. unfold stored in Hf. lia.
Qed.


(** ** Bounded concurrency *)

(** 1 for a worker that holds an assignment. *)
Definition holds (w : wthread) : Z :=
  if Worker.available (w_self w) then 0 else 1.

(** The number of workers that hold an assignment. *)
Definition busy (s : state) : Z := tally holds (_workers s).

Definition reset_of (e : event) : option nat :=
  match e with EvReset i => Some i | _ => None end.

(** The assignments that ended, by the worker that cleared them. *)
Definition completed (s : state) : list nat := omap reset_of (history s).

Lemma flight_reachable n urls s :
  reachable n urls s ->
  Z.of_nat (length (dispatched s)) = Z.of_nat (length (completed s)) + busy s.
Proof.
  revert s. apply reachable_ind.
  - unfold busy, __init__, _init_workers. cbn [_workers].
    rewrite tally_replicate. unfold holds. simpl. lia.
  - intros l s s' Hr IH H. destruct (wf_reachable _ _ _ Hr) as [Hd Hw].
    unfold dispatch_ok, workers_ok, idle_at, busy, completed in *.
    step_cases H; simpl; try done; hist; try done;
      try (erewrite tally_insert by eassumption); unfold holds in *; simpl;
      rewrite ?length_app; simpl; try lia.
    + destruct Hd as (w0 & Hw0 & Ha). simplify_eq.
      rewrite Ha. lia.
    + change (Worker.available (Worker.download_index (w_self w) it))
        with (Worker.available (w_self w)). lia.
    + change (Worker.available (Worker.close (w_self w)))
        with (Worker.available (w_self w)). lia.
    + rewrite (Hw i w) by (by rewrite ?E0). lia.
Qed.

Lemma busy_bounds n urls s :
  reachable n urls s -> 0 <= busy s <= Z.of_nat n.
Proof.
  intros Hr. rewrite <- (workers_length _ _ _ Hr). apply tally_bounds.
  intros w. unfold holds. destruct (Worker.available _); lia.
Qed.


(** An assignment is stored only in a worker that is idle. *)
Lemma assign_idle n urls l s s' i it :
  reachable n urls s -> step l s = Some s' ->
  trace s' = EvAssign i it :: trace s -> idle_at s i.
Proof.
  intros Hr H Ht. destruct (wf_reachable _ _ _ Hr) as [Hd _].
  unfold dispatch_ok in Hd.
  step_cases H; simpl in Ht; simplify_eq;
    try (by apply (f_equal length) in Ht; simpl in Ht; lia).
  done.
Qed.

(** ** The row index of a worker *)

(** The index stored by the last execution of line 262 in worker [i], and
    -1 when there was none; the trace has the newest event first. *)
Fixpoint last_index (i : nat) (tr : list event) : Z :=
  match tr with
  | [] => -1
  | EvIndex j it :: tr' => if decide (j = i) then index it else last_index i tr'
  | _ :: tr' => last_index i tr'
  end.

Lemma index_reachable n urls s j w :
  reachable n urls s -> _workers s !! j = Some w ->
  Worker._index (w_self w) = last_index j (trace s).
Proof.
  intros Hr. revert s Hr j w. apply (reachable_ind n urls (fun s => forall j w,
    _workers s !! j = Some w -> Worker._index (w_self w) = last_index j (trace s))).
  - intros j w H. apply lookup_replicate_1 in H as [-> _]. done.
  - intros l s s' _ IH H j w'.
    step_cases H; simpl; intros Hj; upd; simpl; eauto.
Qed.

Lemma last_index_none j tr :
  (forall it, EvIndex j it ∉ tr) -> last_index j tr = -1.
Proof.
  induction tr as [|e tr IH]; intros H; [done|].
  assert (last_index j tr = -1) as Ht.
  { apply IH. intros it Hin. apply (H it). by right. }
  destruct e; simpl; try done.
  destruct (decide (i = j)) as [->|]; [|done].
  exfalso. apply (H it). by left.
Qed.

Lemma last_index_app j later it earlier :
  (forall it', EvIndex j it' ∉ later) ->
  last_index j (later ++ EvIndex j it :: earlier) = index it.
Proof.
  induction later as [|e later IH]; intros H; simpl.
  - by rewrite decide_True.
  - assert (last_index j (later ++ EvIndex j it :: earlier) = index it) as Ht.
    { apply IH. intros it' Hin. apply (H it'). by right. }
    destruct e; try done.
    destruct (decide (i = j)) as [->|]; [|done].
    exfalso. apply (H it0). by left.
Qed.

(** ** The progress callback *)

Lemma hook_index self data msg :
  Worker._data_hook self data = Ok msg ->
  msg !! "index" = Some (PyInt (Worker._index self)).
Proof.
  unfold Worker._data_hook, Worker._talk_to_gui.
  destruct (Worker.has_playlist data) as [[]|]; simpl; [| |done].
  - destruct (Worker.playlist_info data); simpl; [|done].
    destruct (getitem data "status"); simpl; [|done].
    destruct (py_add _ _); simpl; [|done].
    intros [= <-]. apply lookup_insert_eq.
  - intros [= <-]. apply lookup_insert_eq.
Qed.


(** ** Progress of the shutdown

    From a state in which the manager is on its way out, a schedule leads to
    the end of its thread: the manager runs, and where it waits in [join]
    the worker it waits for runs until its thread ends (the downloader, if
    it is inside a download, returns). *)

Definition wrank (p : wpc) : nat :=
  match p with
  | WIf => 9
  | WParse => 8
  | WDownload _ => 7
  | WRetCode _ => 6
  | WIncrease => 5
  | WStore _ => 4
  | WReset => 3
  | WSleep => 2
  | WWhile => 1
  | WExit | WRaised _ => 0
  end.

Definition mrank (n : nat) (running : bool) (p : mpc) : nat :=
  match p with
  | MDone | MRaised => 0
  | MEmit _ => 1
  | MSignal => 2
  | MElapsed => 3
  | MClose i => 4 + 3 * (n - i)
  | MCloseStop i => 4 + 3 * (n - i) - 1
  | MJoin i => 4 + 3 * (n - i) - 2
  | MWhile => if running then 4 + 3 * n + 4 * n + 8 else 4 + 3 * n + 1
  | MBreak => 4 + 3 * n + 2
  | MSleep => 4 + 3 * n + 3
  | MFor i => 4 + 3 * n + 4 + 4 * (n - i)
  | MPop i => 4 + 3 * n + 4 + 4 * (n - i) - 1
  | MSetUrl i _ => 4 + 3 * n + 4 + 4 * (n - i) - 2
  | MSetIndex i _ => 4 + 3 * n + 4 + 4 * (n - i) - 3
  | MStart => 4 + 3 * n + 4 * n + 9
  | MCheck => 4 + 3 * n + 4 * n + 10
  end%nat.

Definition measure (n : nat) (s : state) : nat :=
  (10 * mrank n (_running s) (m_pc s) +
   match m_pc s with
   | MJoin i =>
       match _workers s !! i with
       | Some w => wrank (w_pc w)
       | None => 0
       end
   | _ => 0
   end)%nat.

(** The thread the schedule runs next. *)
Definition pick (s : state) : label :=
  match m_pc s with
  | MJoin i =>
      match _workers s !! i with
      | Some w =>
          if ended (w_pc w) then LManager
          else match w_pc w with
               | WDownload _ => LReturn i OK
               | _ => LWorker i
               end
      | None => LManager
      end
  | _ => LManager
  end.

Definition leaving (p : mpc) : bool :=
  match p with
  | MClose _ | MCloseStop _ | MJoin _ | MElapsed | MSignal | MEmit _ | MDone => true
  | _ => false
  end.

Definition in_loop (p : mpc) : bool :=
  match p with
  | MCheck | MStart | MWhile | MFor _ | MSleep | MBreak => true
  | _ => false
  end.

(** The manager is on its way out: it has left the loop, or [_running] is
    false, or nothing is left to do. *)
Definition winding (s : state) : Prop :=
  leaving (m_pc s) = true \/ _running s = false \/
  (urls_list s = [] /\ _jobs_done s = true /\ in_loop (m_pc s) = true).

Ltac arith := cbn -[Nat.mul Nat.add Nat.sub] in *.

Lemma drive_step n urls s :
  reachable n urls s -> winding s -> m_pc s <> MDone ->
  exists s', step (pick s) s = Some s' /\ winding s' /\
             (measure n s' < measure n s)%nat.
Proof.
  intros Hr Hw Hd.
  destruct (wf_reachable _ _ _ Hr) as [Hdi Hwo].
  pose proof (cleanup_reachable _ _ _ Hr) as Hc.
  pose proof (workers_length _ _ _ Hr) as Hlen.
  unfold dispatch_ok, cleanup_ok, idle_at, closed_at, winding, pick, measure in *.
  destruct (m_pc s) eqn:E; try done; arith;
    unfold manager_step; rewrite ?E; arith.
  - eexists; split; [done|]. arith. split; [naive_solver|]. lia.
  - eexists; split; [done|]. arith. split; [naive_solver|].
    destruct (_running s); lia.
  - eexists; split; [done|]. arith. destruct (_running s) eqn:Er; arith.
    + split; [naive_solver|]. lia.
    + split; [naive_solver|]. lia.
  - destruct (_workers s !! i) as [w|] eqn:Ew.
    + apply lookup_lt_Some in Ew as Hlt.
      destruct (Worker.available (w_self w) && truthy (urls_list s)) eqn:Eb.
      * eexists; split; [done|]. arith. split; [|lia].
        bools. destruct (urls_list s); [done|]. naive_solver.
      * eexists; split; [done|]. arith. split; [naive_solver|]. lia.
    + eexists; split; [done|]. arith. split; [naive_solver|]. lia.
  - destruct Hdi as (Hne & w & Ew & Ha). apply lookup_lt_Some in Ew as Hlt.
    destruct (urls_list s) as [|it rest] eqn:Eu; [done|].
    eexists; split; [done|]. arith. split; [naive_solver|]. lia.
  - destruct Hdi as (w & Ew & Ha). apply lookup_lt_Some in Ew as Hlt.
    rewrite Ew. arith.
    eexists; split; [done|]. arith. split; [naive_solver|]. lia.
  - destruct Hdi as (w & Ew). apply lookup_lt_Some in Ew as Hlt.
    rewrite Ew. arith.
    eexists; split; [done|]. arith. split; [naive_solver|]. lia.
  - eexists; split; [done|]. arith. split; [naive_solver|]. lia.
  - eexists; split; [done|]. arith.
    destruct (negb (truthy (urls_list s)) && _jobs_done s) eqn:Eb; arith.
    + split; [naive_solver|]. destruct (_running s); lia.
    + destruct Hw as [?|[Hf|(Hu & Hj & _)]]; [done| |by rewrite Hu, Hj in Eb].
      rewrite Hf. split; [naive_solver|]. lia.
  - destruct (_workers s !! i) as [w|] eqn:Ew.
    + apply lookup_lt_Some in Ew as Hlt.
      eexists; split; [done|]. arith. split; [naive_solver|]. lia.
    + eexists; split; [done|]. arith. split; [naive_solver|]. lia.
  - destruct Hc as (_ & w & Ew & Hrun). apply lookup_lt_Some in Ew as Hlt.
    eexists; split; [done|]. arith. split; [naive_solver|].
    rewrite Ew. destruct (w_pc w); arith; lia.
  - destruct Hc as (_ & _ & w & Ew & Hrun). apply lookup_lt_Some in Ew as Hlt.
    rewrite Ew. 
    destruct (w_pc w) eqn:Epc; arith;
      unfold manager_step, worker_step, return_step; rewrite ?E, ?Ew; arith;
      rewrite ?Epc, ?Hrun; arith;
      (eexists; split; [done|]); arith; rewrite ?E; arith;
      rewrite ?list_lookup_insert_eq by done; arith;
      (split; [naive_solver|]); try lia.
    + destruct (negb _); arith; lia.
    + destruct (is_success rc); arith; lia.
  - eexists; split; [done|]. arith. split; [naive_solver|]. lia.
  - eexists; split; [done|]. arith. split; [naive_solver|]. lia.
  - eexists; split; [done|]. arith. split; [naive_solver|]. lia.
Qed.

(** The labels of the threads of the pool: no call from the GUI, no
    callback, no clock tick. *)
Definition pool_label (l : label) : bool :=
  match l with
  | LManager | LWorker _ | LReturn _ _ => true
  | _ => false
  end.

Lemma pick_pool s : pool_label (pick s) = true.
Proof.
  unfold pick. destruct (m_pc s); try done.
  destruct (_workers s !! i) as [w|]; [|done].
  destruct (ended (w_pc w)); [done|]. by destruct (w_pc w).
Qed.

Lemma drive n urls s :
  reachable n urls s -> winding s ->
  exists ls s', run ls s = Some s' /\ m_pc s' = MDone /\
                Forall (fun l => pool_label l = true) ls.
Proof.
  remember (measure n s) as k eqn:Hk. revert s Hk.
  induction k as [k IH] using lt_wf_ind. intros s -> Hr Hw.
  destruct (decide (m_pc s = MDone)) as [Hd|Hd].
  { exists [], s. by repeat split. }
  destruct (drive_step _ _ _ Hr Hw Hd) as (s1 & Hs1 & Hw1 & Hlt).
  destruct (IH _ Hlt s1 eq_refl) as (ls & s' & Hrun & Hdone & Hall);
    [by eapply reachable_step|done|].
  exists (pick s :: ls), s'. split_and!; [|done|].
  - simpl. by rewrite Hs1.
  - constructor; [apply pick_pool|done].
Qed.


(** ** Runs without calls from the GUI *)

Lemma pool_gui_free l : pool_label l = true -> gui_free l = true.
Proof. by destruct l. Qed.

(** What holds along a run that starts with an empty list and has no call
    from the GUI. *)
Definition idle_ok (s : state) : Prop :=
  urls_list s = [] /\ _running s = true /\
  (forall j w, _workers s !! j = Some w -> Worker.available (w_self w) = true) /\
  dispatched s = [] /\
  match m_pc s with
  | MPop _ | MSetUrl _ _ | MSetIndex _ _ | MRaised => False
  | MEmit sig => sig = "finished" /\ signals s = []
  | MDone => signals s = ["finished"]
  | _ => signals s = []
  end.

Lemma idle_step l s s' :
  gui_free l = true -> step l s = Some s' -> idle_ok s -> idle_ok s'.
Proof.
  intros Hl H (Hu & Hr & Hw & Hd & Hm). unfold idle_ok.
  step_cases H; try done; simpl;
    try match goal with E : m_pc s = _ |- _ => rewrite E in Hm end;
    try done;
    (split; [|split; [|split; [|split]]];
      [ try done | try done
      | try done; intros j' w' Hj; upd; simpl; try by eauto
      | hist; try done
      | at_mpc s; try done; hist; try done ]).
  - rewrite Hu in E1. by rewrite andb_false_r in E1.
  - change (Worker.available (Worker.close (w_self w)))
      with (Worker.available (w_self w)). by eauto.
  - by rewrite Hr in E0.
  - destruct Hm as [-> ->]. done.
Qed.

Lemma idle_run ls s s' :
  Forall (fun l => gui_free l = true) ls ->
  run ls s = Some s' -> idle_ok s -> idle_ok s'.
Proof.
  intros Hall. revert s. induction Hall as [|l ls Hl _ IH]; intros s H Hs.
  - simpl in H. by simplify_eq.
  - simpl in H. destruct (step l s) as [s1|] eqn:E; [|done].
    eapply IH; [done|]. by eapply idle_step.
Qed.

Lemma idle_init n : idle_ok (__init__ n []).
Proof.
  repeat split. intros j w H. by apply lookup_replicate_1 in H as [-> _].
Qed.

Lemma jobs_done_all s :
  (forall j w, _workers s !! j = Some w -> Worker.available (w_self w) = true) ->
  _jobs_done s = true.
Proof.
  intros H. unfold _jobs_done. apply forallb_forall. intros w Hin.
  apply list_elem_of_In, list_elem_of_lookup in Hin as [j Hj]. by eauto.
Qed.

Lemma idle_winding s : idle_ok s -> winding s.
Proof.
  intros (Hu & Hr & Hw & Hd & Hm). unfold winding.
  destruct (m_pc s) eqn:E; try done; try (by left);
    right; right; split_and!; try done; by apply jobs_done_all.
Qed.


(** ** Where the terminal signal is decided *)

(** The program counters after the test of line 106. *)
Definition decided (p : mpc) : bool :=
  match p with
  | MEmit _ | MDone => true
  | _ => false
  end.

Lemma decided_step l s s' :
  step l s = Some s' -> decided (m_pc s') = true -> decided (m_pc s) = false ->
  l = LManager /\ m_pc s = MSignal.
Proof.
  intros H Hd Hn.
  step_cases H; simpl in *; try (by rewrite Hd in Hn); try done;
    try (by rewrite ?E in * );
    repeat match goal with
      | H : context [if ?b then _ else _] |- _ => destruct b
      end; done.
Qed.

(** A run that ends the manager's thread went through the test of line 106. *)
Lemma test_point n urls ls s :
  run ls (__init__ n urls) = Some s -> decided (m_pc s) = true ->
  exists ls1 s1 ls2,
    ls = ls1 ++ LManager :: ls2 /\
    run ls1 (__init__ n urls) = Some s1 /\ m_pc s1 = MSignal.
Proof.
  revert s. induction ls as [|l ls IH] using rev_ind; intros s Hrun Hd.
  - simpl in Hrun. by simplify_eq.
  - rewrite run_app in Hrun.
    destruct (run ls (__init__ n urls)) as [s0|] eqn:E0; simpl in Hrun; [|done].
    destruct (step l s0) as [s1|] eqn:E1; simpl in Hrun; [|done]. simplify_eq.
    destruct (decided (m_pc s0)) eqn:Ed.
    + destruct (IH s0 eq_refl Ed) as (ls1 & s1 & ls2 & -> & Hr1 & Hpc).
      exists ls1, s1, (ls2 ++ [l]). split_and!; [|done|done].
      by rewrite <- app_assoc.
    + destruct (decided_step _ _ _ E1 Hd Ed) as [-> Hpc].
      by exists ls, s0, [].
Qed.

(** The signal the test of line 106 chooses in state [s]. *)
Definition verdict (s : state) : string :=
  if _running s then "finished" else "closed".

Lemma verdict_final n urls ls1 ls2 s1 s :
  run ls1 (__init__ n urls) = Some s1 -> m_pc s1 = MSignal ->
  run (LManager :: ls2) s1 = Some s -> m_pc s = MDone ->
  terminal_signals s = [verdict s1].
Proof.
  intros H1 Hpc H2 Hd. simpl in H2.
  destruct (manager_step s1) as [s2|] eqn:E; [|done].
  assert (settled (verdict s1) s2) as Hs.
  { eapply settled_test; [by exists ls1|done|done]. }
  eapply settled_run in Hs; [|done].
  unfold settled in Hs. by rewrite Hd in Hs.
Qed.

Lemma closed_final n urls ls0 ls1 s0 s :
  run ls0 (__init__ n urls) = Some s0 ->
  before_signal (m_pc s0) = true -> _running s0 = false ->
  run ls1 s0 = Some s -> m_pc s = MDone ->
  terminal_signals s = ["closed"].
Proof.
  intros H0 Hb Hf H1 Hd.
  assert (settled "closed" s0) as Hs.
  { eapply settled_closed; [by exists ls0|done|done]. }
  eapply settled_run in Hs; [|done].
  unfold settled in Hs. by rewrite Hd in Hs.
Qed.

(** ** The closing signal *)







(** ** Theorems about the progress callback *)

Definition ev_no_status : gmap string pyval :=
  <["status" := PyNone]>
  (<["playlist_index" := PyStr "1"]>
  (<["playlist_size" := PyStr "5"]> ∅)).

Definition ev_no_size : gmap string pyval :=
  <["status" := PyStr "Downloading"]>
  (<["playlist_index" := PyStr "1"]>
  (<["playlist_size" := PyNone]> ∅)).


Definition ev_playlist : gmap string pyval :=
  <["status" := PyStr "Downloading"]>
  (<["playlist_index" := PyStr "1"]>
  (<["playlist_size" := PyStr "5"]> ∅)).

Lemma hook_all_present self data s i n :
  data !! "status" = Some (PyStr s) ->
  data !! "playlist_index" = Some (PyStr i) ->
  data !! "playlist_size" = Some (PyStr n) ->
  Worker._data_hook self data =
    Ok (<["index" := PyInt (Worker._index self)]>
        (<["status" := PyStr (s +:+ (((" " +:+ i) +:+ "/") +:+ n))]> data)).
Proof.
  intros Hs Hi Hn.
  unfold Worker._data_hook, Worker.has_playlist, Worker.playlist_info, getitem.
  rewrite Hs, Hi, Hn. reflexivity.
Qed.

Lemma hook_no_status self data :
  data !! "status" = Some PyNone ->
  Worker._data_hook self data =
    Ok (<["index" := PyInt (Worker._index self)]> data).
Proof.
  intros Hs. unfold Worker._data_hook, Worker.has_playlist, getitem.
  rewrite Hs. reflexivity.
Qed.

Lemma hook_no_position self data st :
  data !! "status" = Some st ->
  data !! "playlist_index" = Some PyNone ->
  Worker._data_hook self data =
    Ok (<["index" := PyInt (Worker._index self)]> data).
Proof.
  intros Hs Hi. unfold Worker._data_hook, Worker.has_playlist, getitem.
  rewrite Hs, Hi. by destruct st.
Qed.


Lemma hook_size_None self data st pidx :
  data !! "status" = Some st -> is_not_None st = true ->
  data !! "playlist_index" = Some pidx -> is_not_None pidx = true ->
  data !! "playlist_size" = Some PyNone ->
  Worker.has_playlist data = Ok true /\
  Worker.playlist_info data = Raise TypeError /\
  Worker._data_hook self data = Raise TypeError.
Proof.
  intros Hs Est Hi Ei Hn.
  unfold Worker._data_hook, Worker.has_playlist, Worker.playlist_info, getitem.
  rewrite Hs, Hi, Hn. simpl. rewrite Est. simpl. rewrite Ei.
  by destruct pidx.
Qed.

Example hook_playlist :
  Worker._data_hook Worker.__init__ ev_playlist =
  Ok (<["index" := PyInt (-1)]> (<["status" := PyStr "Downloading 1/5"]> ev_playlist)).
Proof. vm_compute. reflexivity. Qed.

Example hook_ev_no_status :
  Worker._data_hook Worker.__init__ ev_no_status =
  Ok (<["index" := PyInt (-1)]> ev_no_status).
Proof. vm_compute. reflexivity. Qed.

Example hook_ev_no_size :
  Worker._data_hook Worker.__init__ ev_no_size = Raise TypeError.
Proof. vm_compute. reflexivity. Qed.

(** ** Schedules *)

(** [k] statements of the manager's thread. *)
Definition manager (k : nat) : list label := replicate k LManager.

(** Worker [i], idle at line 238, finds an assignment, runs the download,
    which returns [rc], and comes back to line 238. *)
Definition download_cycle (i : nat) (rc : ret_code) : list label :=
  [LWorker i; LWorker i; LWorker i; LReturn i rc] ++
  (if is_success rc then [LWorker i; LWorker i; LWorker i] else [LWorker i]) ++
  [LWorker i; LWorker i].

(** A complete call of [stop_downloads] on a pool of [n] workers. *)
Definition call_stop_downloads (n : nat) : list label :=
  LStop :: replicate (n + 2) LCaller.

(** One worker, four items, the return codes OK, ERROR, ALREADY, ERROR. *)
Definition four_items : list item :=
  [Item "a" 0; Item "b" 1; Item "c" 2; Item "d" 3].

Definition four_downloads : list label :=
  manager 2 ++
  manager 8 ++ download_cycle 0 OK ++
  manager 8 ++ download_cycle 0 ERROR ++
  manager 8 ++ download_cycle 0 ALREADY ++
  manager 8 ++ download_cycle 0 ERROR ++
  manager 7 ++ [LWorker 0] ++ manager 5.

(** Two items in the pool of three workers; both downloads return OK.  In
    [racing_reads] the items are handed to workers 0 and 1, the downloads
    return, and each of the two threads executes the read of line 83; in
    [racing_stores] each executes the store, clears its assignment, and the
    manager leaves the loop by its break and closes the pool. *)
Definition two_items : list item := [Item "a" 0; Item "b" 1].

Definition racing_reads : list label :=
  manager 2 ++ manager 12 ++
  [LWorker 0; LWorker 0; LWorker 0; LReturn 0 OK; LWorker 0; LWorker 0] ++
  [LWorker 1; LWorker 1; LWorker 1; LReturn 1 OK; LWorker 1; LWorker 1].

Definition racing_stores : list label :=
  [LWorker 0; LWorker 1] ++
  [LWorker 0; LWorker 0; LWorker 1; LWorker 1] ++
  manager 1 ++
  flat_map (fun i => manager 2 ++ [LWorker i] ++ manager 1) (seq 0 3) ++
  manager 4.

Definition racing : list label := racing_reads ++ racing_stores.

(** Three items in the pool of three workers, all downloads return OK.
    Worker 0 reads the counter (0); workers 1 and 2 then read and store one
    after the other, which leaves the counter at 2 with the store of
    worker 0 still to come. *)
Definition three_items : list item := [Item "a" 0; Item "b" 1; Item "c" 2].

Definition overtaking : list label :=
  manager 2 ++ manager 15 ++
  [LWorker 0; LWorker 0; LWorker 0; LReturn 0 OK; LWorker 0; LWorker 0] ++
  [LWorker 1; LWorker 1; LWorker 1; LReturn 1 OK; LWorker 1; LWorker 1; LWorker 1] ++
  [LWorker 2; LWorker 2; LWorker 2; LReturn 2 OK; LWorker 2; LWorker 2; LWorker 2].

(** The state a schedule leads to (the initial state when it cannot run). *)
Definition final (ls : list label) (s : state) : state :=
  match run ls s with
  | Some s' => s'
  | None => s
  end.

(** No item, one worker: the loop ends by its break, then the GUI calls
    [stop_downloads] while the manager closes the pool. *)
Definition stop_after_break : list label :=
  manager 6 ++ [LManager] ++ call_stop_downloads 1 ++
  manager 2 ++ [LWorker 0] ++ manager 5.


Definition empty_run (n : nat) : list label :=
  manager (n + 6) ++
  flat_map (fun i => manager 2 ++ [LWorker i] ++ manager 1) (seq 0 n) ++
  manager 4.

Lemma running_step l s s' :
  step l s = Some s' -> _running s' = true -> _running s = true.
Proof. intros H. step_cases H; simpl; try done; intros; congruence. Qed.

Lemma running_run ls s s' :
  run ls s = Some s' -> _running s' = true -> _running s = true.
Proof.
  revert s. induction ls as [|l ls IH]; intros s H Hr; simpl in H.
  - by simplify_eq.
  - destruct (step l s) as [s1|] eqn:E; [|done].
    eapply running_step; [done|]. by eapply IH.
Qed.

Lemma is_success_spec rc : is_success rc = true <-> rc = OK \/ rc = ALREADY.
Proof.
  unfold is_success. rewrite orb_true_iff, !bool_decide_eq_true. done.
Qed.

Lemma successful_step l s s' :
  step l s = Some s' ->
  _successful s' = _successful s \/
  exists i w v, l = LWorker i /\ _workers s !! i = Some w /\
                w_pc w = WStore v /\ _successful s' = v + 1.
Proof.
  intros H. step_cases H; simpl; try (by left).
  right. by exists i, w, v.
Qed.

Lemma read_step i s s' w :
  step (LWorker i) s = Some s' -> _workers s !! i = Some w ->
  w_pc w = WIncrease ->
  _workers s' !! i = Some (WThread (w_self w) (WStore (_successful s))) /\
  _successful s' = _successful s.
Proof.
  intros H Hw Hpc. simpl in H. unfold worker_step in H.
  rewrite Hw in H. simpl in H. rewrite Hpc in H. simplify_eq. simpl.
  split; [|done]. apply list_lookup_insert_eq. by eapply lookup_lt_Some.
Qed.

(** A call of [increase_succ] that no other thread interrupts adds one. *)
Lemma increase_alone i s s1 s2 w :
  _workers s !! i = Some w -> w_pc w = WIncrease ->
  step (LWorker i) s = Some s1 -> step (LWorker i) s1 = Some s2 ->
  _successful s2 = _successful (increase_succ s) /\
  _successful s2 = _successful s + 1.
Proof.
  intros Hw Hpc H1 H2. destruct (read_step _ _ _ _ H1 Hw Hpc) as [Hw1 Hs1].
  simpl in H2. unfold worker_step in H2. rewrite Hw1 in H2. simpl in H2.
  simplify_eq. done.
Qed.

Lemma for_step i s s' :
  m_pc s = MFor i -> step LManager s = Some s' -> m_pc s' = MPop i ->
  idle_at s i.
Proof.
  intros Hpc H Hp. simpl in H. unfold manager_step in H. rewrite Hpc in H.
  destruct (_workers s !! i) as [w|] eqn:Ew; [|by simplify_eq].
  destruct (Worker.available (w_self w)) eqn:Ea; simpl in H.
  - by exists w.
  - by simplify_eq.
Qed.

Lemma pop_step i s s' :
  m_pc s = MPop i -> step LManager s = Some s' -> urls_list s <> [] ->
  exists it, urls_list s = it :: urls_list s' /\ m_pc s' = MSetUrl i it.
Proof.
  intros Hpc H Hne. simpl in H. unfold manager_step in H. rewrite Hpc in H.
  destruct (urls_list s) as [|it rest]; [done|]. simplify_eq. by exists it.
Qed.

Lemma add_step it s s' :
  step (LAdd it) s = Some s' ->
  urls_list s' = urls_list s ++ [it] /\ added s' = added s ++ [it].
Proof.
  intros H. simpl in H. unfold add_call in H.
  destruct (c_pc s); simplify_eq. split; [done|]. hist. done.
Qed.

Lemma all_joined n urls s :
  reachable n urls s ->
  m_pc s = MElapsed \/ m_pc s = MSignal \/ decided (m_pc s) = true ->
  forall j w, _workers s !! j = Some w ->
    ended (w_pc w) = true /\ Worker._running (w_self w) = false /\
    EvStopReq j ∈ trace s.
Proof.
  intros Hr Hpc j w Hj. apply cleanup_reachable in Hr.
  unfold cleanup_ok, shut, joined in Hr.
  destruct (m_pc s); try naive_solver.
Qed.

Lemma terminal_done n urls s :
  reachable n urls s -> terminal_signals s <> [] -> m_pc s = MDone.
Proof.
  intros Hr Hne. apply terminal_reachable in Hr. unfold terminal_ok in Hr.
  destruct (m_pc s); naive_solver.
Qed.

Lemma terminal_none n urls s :
  reachable n urls s -> m_pc s <> MDone -> terminal_signals s = [].
Proof.
  intros Hr Hne. apply terminal_reachable in Hr. unfold terminal_ok in Hr.
  destruct (m_pc s); naive_solver.
Qed.

Lemma forallb_Forall {A} (f : A -> bool) l :
  forallb f l = true -> Forall (fun x => f x = true) l.
Proof.
  rewrite forallb_forall, Forall_forall. intros H x Hx.
  apply H. by apply list_elem_of_In.
Qed.

Lemma Forall_forallb {A} (f : A -> bool) l :
  Forall (fun x => f x = true) l -> forallb f l = true.
Proof.
  rewrite forallb_forall, Forall_forall. intros H x Hx.
  apply H. by apply list_elem_of_In.
Qed.

Lemma time_step l s s' :
  step l s = Some s' -> _time_it_took s' <> _time_it_took s ->
  l = LManager /\ (m_pc s = MStart \/ m_pc s = MElapsed).
Proof.
  intros H Hne. step_cases H; simpl in Hne; try done; by split; [|eauto].
Qed.

Lemma terminal_step n urls l s s' :
  reachable n urls s -> step l s = Some s' ->
  terminal_signals s' <> terminal_signals s ->
  l = LManager /\ exists sig, m_pc s = MEmit sig.
Proof.
  intros Hr H Hne.
  step_cases H; hist; simpl in Hne; rewrite ?app_nil_r in Hne; try done.
  split; [done|]. by exists sig.
Qed.

(** * The claims *)

(** C1.  The manager builds exactly [WORKERS_NUMBER] workers (3 by default)
    and the pool keeps that size; in every reachable state the number of
    items in flight (assigned and not yet cleared) is the number of workers
    that hold an assignment, which is at most the size of the pool; an
    assignment is stored only in a worker that is idle, and the test of
    line 91 sends the manager to the assignment only for a worker whose
    [available()] is true.  This holds for every pool size and every list of
    items. *)
Theorem bounded_pool n urls ls s :
  run ls (__init__ n urls) = Some s ->
  length (_init_workers WORKERS_NUMBER) = 3%nat /\
  length (_workers s) = n /\
  0 <= busy s <= Z.of_nat n /\
  Z.of_nat (length (dispatched s)) - Z.of_nat (length (completed s)) = busy s /\
  (forall l s' i it,
     step l s = Some s' -> trace s' = EvAssign i it :: trace s -> idle_at s i) /\
  (forall i s',
     m_pc s = MFor i -> step LManager s = Some s' -> m_pc s' = MPop i ->
     idle_at s i).
Proof.
  intros Hrun. assert (reachable n urls s) as Hr by (by exists ls).
  split_and!.
  - done.
  - by eapply workers_length.
  - by eapply busy_bounds.
  - by eapply busy_bounds.
  - pose proof (flight_reachable _ _ _ Hr). lia.
  - intros l s' i it. by eapply assign_idle.
  - intros i s'. apply for_step.
Qed.

Lemma bounded_pool_witness :
  0 <= busy (final (manager 7) (__init__ 1 four_items)) <= 1.
Proof.
  destruct (bounded_pool 1 four_items (manager 7)
              (final (manager 7) (__init__ 1 four_items)))
    as (_ & _ & Hb & _); [vm_compute; reflexivity|].
  exact Hb.
Defined.

(** C2.  The claim fails on the code when two workers run line 83 at
    the same time.  In the pool of [WORKERS_NUMBER] workers, with two items
    whose downloads both return OK, the threads of workers 0 and 1 both read
    [_successful] (0) before either stores its sum: both store 1.  The run
    ends as a complete one, with [finished] posted, two OK codes returned,
    and [_successful] at 1, not 2. *)
Theorem lost_increment :
  let s0 := __init__ WORKERS_NUMBER two_items in
  let s1 := final racing_reads s0 in
  let s := final racing s0 in
  run racing_reads s0 = Some s1 /\
  _successful s1 = 0 /\
  w_pc <$> _workers s1 = [WStore 0; WStore 0; WWhile] /\
  run racing_stores s1 = Some s /\
  m_pc s = MDone /\ signals s = ["finished"] /\
  outcomes s = [OK; OK] /\ successes (outcomes s) = 2 /\
  _successful s = 1.
Proof. vm_compute. repeat split. Qed.

(** C3, as the claim states it, fails: the loop is left by the break of
    line 97 (empty list, every worker idle, [_running] true), the GUI calls
    [stop_downloads] while the manager closes the pool, and the terminal
    signal is [closed], not [finished]. *)
Lemma closed_after_natural_exit :
  let s1 := final (manager 6) (__init__ 1 []) in
  let s := final stop_after_break (__init__ 1 []) in
  run (manager 6) (__init__ 1 []) = Some s1 /\
  m_pc s1 = MBreak /\ _running s1 = true /\
  urls_list s1 = [] /\ _jobs_done s1 = true /\
  (m_pc <$> step LManager s1) = Some (MClose 0) /\
  run stop_after_break (__init__ 1 []) = Some s /\
  m_pc s = MDone /\
  signals s = ["closing"; "closed"] /\
  terminal_signals s <> ["finished"].
Proof. vm_compute. repeat split; discriminate. Qed.

(** C3, amended.  Once the loop is left the manager's thread can always run
    to its end; it posts no terminal signal before its last statement and
    exactly one with it.  The signal is the one chosen by the test of line
    106: [closed] when [_running] is false at that test, which is the case
    whenever [_running] was false when the loop was left, and [finished]
    when [_running] is true at that test, which is the case whenever it is
    still true at the end. *)
Theorem terminal_signal n urls ls s :
  run ls (__init__ n urls) = Some s -> leaving (m_pc s) = true ->
  (exists ls' s', run ls' s = Some s' /\ m_pc s' = MDone) /\
  (forall ls' s', run ls' s = Some s' ->
     (m_pc s' <> MDone -> terminal_signals s' = []) /\
     (m_pc s' = MDone ->
        (exists ls1 s1 ls2,
           ls ++ ls' = ls1 ++ LManager :: ls2 /\
           run ls1 (__init__ n urls) = Some s1 /\ m_pc s1 = MSignal /\
           terminal_signals s' = [verdict s1]) /\
        (_running s = false -> before_signal (m_pc s) = true ->
         terminal_signals s' = ["closed"]) /\
        (_running s' = true -> terminal_signals s' = ["finished"]))).
Proof.
  intros Hrun Hl. assert (reachable n urls s) as Hr by (by exists ls).
  split.
  { destruct (drive _ _ _ Hr) as (ls' & s' & H1 & H2 & _); [by left|].
    by exists ls', s'. }
  intros ls' s' Hrun'.
  assert (run (ls ++ ls') (__init__ n urls) = Some s') as Hall.
  { rewrite run_app, Hrun. exact Hrun'. }
  assert (reachable n urls s') as Hr' by (by exists (ls ++ ls')).
  split; [by eapply terminal_none|]. intros Hd.
  destruct (test_point _ _ _ _ Hall) as (ls1 & s1 & ls2 & Heq & H1 & Hpc);
    [by rewrite Hd|].
  assert (terminal_signals s' = [verdict s1]) as Hv.
  { rewrite Heq, run_app, H1 in Hall. by eapply verdict_final. }
  split_and!.
  - exists ls1, s1, ls2. by split_and!.
  - intros Hf Hb. by eapply (closed_final n urls ls ls' s s').
  - intros Ht. rewrite Hv. unfold verdict.
    rewrite Heq, run_app, H1 in Hall. cbn [mbind option_bind] in Hall.
    by rewrite (running_run _ _ _ Hall Ht).
Qed.

Lemma terminal_signal_witness :
  exists ls' s',
    run ls' (final (manager 7) (__init__ 1 [])) = Some s' /\ m_pc s' = MDone.
Proof.
  destruct (terminal_signal 1 [] (manager 7) (final (manager 7) (__init__ 1 [])))
    as [H _]; [vm_compute; reflexivity|vm_compute; reflexivity|].
  exact H.
Defined.







(** C6.  The items assigned so far, then the item in the manager's hand,
    then the list, are the initial list followed by the items added, in
    order: the manager pops the head, [add_url] appends at the tail.  So the
    k-th assignment hands out the k-th item in the order of arrival, and an
    item that arrived before an assigned item was assigned before it. *)
Theorem fifo_dispatch n urls ls s :
  run ls (__init__ n urls) = Some s ->
  urls ++ added s = dispatched s ++ in_hand s ++ urls_list s /\
  (forall k a, dispatched s !! k = Some a -> (urls ++ added s) !! k = Some a) /\
  (forall j k a b, (j < k)%nat ->
     (urls ++ added s) !! j = Some a -> dispatched s !! k = Some b ->
     dispatched s !! j = Some a) /\
  (forall i s', m_pc s = MPop i -> step LManager s = Some s' ->
     exists it, urls_list s = it :: urls_list s' /\ m_pc s' = MSetUrl i it) /\
  (forall it s', step (LAdd it) s = Some s' ->
     urls_list s' = urls_list s ++ [it] /\ added s' = added s ++ [it]).
Proof.
  intros Hrun. assert (reachable n urls s) as Hr by (by exists ls).
  split_and!.
  - by eapply fifo_reachable.
  - intros k a. by eapply dispatched_lookup.
  - intros j k a b. by eapply dispatched_before.
  - intros i s' Hpc Hs. eapply pop_step; [done|done|].
    destruct (wf_reachable _ _ _ Hr) as [Hd _]. unfold dispatch_ok in Hd.
    rewrite Hpc in Hd. by destruct Hd.
  - intros it s'. apply add_step.
Qed.

Lemma fifo_dispatch_witness :
  dispatched (final four_downloads (__init__ 1 four_items)) !! 0%nat =
  Some (Item "a" 0).
Proof.
  destruct (fifo_dispatch 1 four_items four_downloads
              (final four_downloads (__init__ 1 four_items)))
    as (_ & _ & H & _); [vm_compute; reflexivity|].
  apply (H 0%nat 1%nat (Item "a" 0) (Item "b" 1));
    [lia|vm_compute; reflexivity|vm_compute; reflexivity].
Defined.

(** C7.  A manager built with an empty list, with any number of workers, in
    a run without [add_url] and without [stop_downloads]: no item is ever
    assigned, no [closing] or [closed] signal is posted, the only signal is
    one [finished], posted by the last statement of the manager's thread,
    and that statement can always be reached. *)
Theorem natural_completion n ls s :
  run ls (__init__ n []) = Some s -> forallb gui_free ls = true ->
  dispatched s = [] /\
  (m_pc s <> MDone -> signals s = []) /\
  (m_pc s = MDone -> signals s = ["finished"]) /\
  (exists ls' s',
     forallb gui_free ls' = true /\ run ls' s = Some s' /\
     m_pc s' = MDone /\ signals s' = ["finished"] /\ dispatched s' = []).
Proof.
  intros Hrun Hq. apply forallb_Forall in Hq.
  assert (reachable n [] s) as Hr by (by exists ls).
  pose proof (idle_run _ _ _ Hq Hrun (idle_init n)) as Hi.
  split_and!.
  - by destruct Hi as (_ & _ & _ & ? & _).
  - destruct Hi as (_ & _ & _ & _ & Hm). intros Hd.
    destruct (m_pc s); try done. by destruct Hm.
  - destruct Hi as (_ & _ & _ & _ & Hm). intros Hd. by rewrite Hd in Hm.
  - destruct (drive _ _ _ Hr (idle_winding _ Hi)) as (ls' & s' & H1 & H2 & H3).
    assert (Forall (fun l => gui_free l = true) ls') as Hq'.
    { eapply Forall_impl; [exact H3|]. apply pool_gui_free. }
    pose proof (idle_run _ _ _ Hq' H1 Hi) as (_ & _ & _ & Hd' & Hm').
    rewrite H2 in Hm'. exists ls', s'. split_and!; try done.
    by apply Forall_forallb.
Qed.

Lemma natural_completion_witness :
  signals (final (empty_run 3) (__init__ 3 [])) = ["finished"].
Proof.
  destruct (natural_completion 3 (empty_run 3)
              (final (empty_run 3) (__init__ 3 [])))
    as (_ & _ & H & _);
    [vm_compute; reflexivity|vm_compute; reflexivity|].
  apply H. vm_compute. reflexivity.
Defined.

(** C8.  Once the loop is left, by the break or because [_running] is
    false, the manager closes each worker, asks its downloader to stop and
    joins it: when the manager is at line 104, where it finalises
    [_time_it_took], and from there on, every worker's thread has ended,
    its [_running] is false and its downloader was asked to stop.  A state
    with a terminal signal is such a state, [join] returns only for a thread
    that has ended, and the step that writes [_time_it_took] or posts the
    terminal signal starts from a state where every worker's thread has
    ended.  The joins do return: the end of the manager's thread can be
    reached. *)
Theorem shutdown_joins n urls ls s :
  run ls (__init__ n urls) = Some s -> leaving (m_pc s) = true ->
  length (_workers s) = n /\
  (m_pc s = MElapsed \/ m_pc s = MSignal \/ decided (m_pc s) = true ->
   forall j w, _workers s !! j = Some w ->
     ended (w_pc w) = true /\ Worker._running (w_self w) = false /\
     EvStopReq j ∈ trace s) /\
  (terminal_signals s <> [] ->
   forall j w, _workers s !! j = Some w -> ended (w_pc w) = true) /\
  (forall i, m_pc s = MJoin i ->
     forall s', step LManager s = Some s' ->
     exists w, _workers s !! i = Some w /\ ended (w_pc w) = true) /\
  (forall l s', step l s = Some s' ->
     _time_it_took s' <> _time_it_took s \/
     terminal_signals s' <> terminal_signals s ->
     forall j w, _workers s !! j = Some w -> ended (w_pc w) = true) /\
  (exists ls' s',
     run ls' s = Some s' /\ m_pc s' = MDone /\
     forall j w, _workers s' !! j = Some w -> ended (w_pc w) = true).
Proof.
  intros Hrun Hl. assert (reachable n urls s) as Hr by (by exists ls).
  split_and!.
  - by eapply workers_length.
  - by eapply all_joined.
  - intros Hne j w Hj.
    eapply all_joined; [done| |done].
    right; right. by rewrite (terminal_done _ _ _ Hr Hne).
  - intros i Hpc s' Hs. simpl in Hs. unfold manager_step in Hs.
    rewrite Hpc in Hs. destruct (_workers s !! i) as [w|]; [|done].
    simpl in Hs. destruct (ended (w_pc w)) eqn:E; [|done]. by exists w.
  - intros l s' Hs [Ht|Ht] j w Hj.
    + destruct (time_step _ _ _ Hs Ht) as [_ [Hpc|Hpc]];
        [by rewrite Hpc in Hl|].
      eapply all_joined; [done|by left|done].
    + destruct (terminal_step _ _ _ _ _ Hr Hs Ht) as [_ [sig Hpc]].
      eapply all_joined; [done| |done]. right; right. by rewrite Hpc.
  - destruct (drive _ _ _ Hr) as (ls' & s' & H1 & H2 & _); [by left|].
    exists ls', s'. split_and!; try done. intros j w Hj.
    eapply all_joined; [by eapply reachable_run| |done].
    right; right. by rewrite H2.
Qed.

Lemma shutdown_joins_witness :
  ended WExit = true /\
  EvStopReq 2 ∈ trace (final (empty_run 3) (__init__ 3 [])).
Proof.
  destruct (shutdown_joins 3 [] (empty_run 3)
              (final (empty_run 3) (__init__ 3 [])))
    as (_ & H & _);
    [vm_compute; reflexivity|vm_compute; reflexivity|].
  destruct (H (or_intror (or_intror eq_refl)) 2%nat
              (WThread (Worker.Build false None (-1)) WExit))
    as (H1 & _ & H3); [vm_compute; reflexivity|].
  split; [exact H1|exact H3].
Defined.

(** C9.  For every event whose status and playlist position are present
    and whose playlist size is absent, the test of line 289 passes and the
    callback raises TypeError: with a string for the position it is the
    concatenation of line 293 that raises.  Nothing is forwarded. *)
Theorem hook_size_absent self data st pidx :
  data !! "status" = Some st -> is_not_None st = true ->
  data !! "playlist_index" = Some pidx -> is_not_None pidx = true ->
  data !! "playlist_size" = Some PyNone ->
  Worker.has_playlist data = Ok true /\
  Worker.playlist_info data = Raise TypeError /\
  Worker._data_hook self data = Raise TypeError /\
  (forall i, pidx = PyStr i ->
     py_add (PyStr (" " +:+ i)) (PyStr "/") = Ok (PyStr ((" " +:+ i) +:+ "/")) /\
     py_add (PyStr ((" " +:+ i) +:+ "/")) PyNone = Raise TypeError).
Proof.
  intros Hs Est Hi Ei Hn.
  destruct (hook_size_None self data st pidx Hs Est Hi Ei Hn) as (H1 & H2 & H3).
  split_and!; try done.
Qed.

Lemma hook_size_absent_witness :
  Worker._data_hook Worker.__init__ ev_no_size = Raise TypeError.
Proof.
  destruct (hook_size_absent Worker.__init__ ev_no_size
              (PyStr "Downloading") (PyStr "1"))
    as (_ & _ & H & _);
    [vm_compute; reflexivity|reflexivity|vm_compute; reflexivity|reflexivity
    |vm_compute; reflexivity|].
  exact H.
Defined.

(** C10.  A worker starts with row index -1, and the reset of line 248
    clears the URL and keeps the index.  So in every reachable state an
    event forwarded by worker [j] carries -1 when line 262 never ran for
    that worker, and otherwise the index of the item of its last run,
    whatever happened since (the item completing included). *)
Theorem stale_row_index n urls ls s j w data msg :
  run ls (__init__ n urls) = Some s -> _workers s !! j = Some w ->
  Worker._data_hook (w_self w) data = Ok msg ->
  Worker._index Worker.__init__ = -1 /\
  Worker._index (Worker.reset (w_self w)) = Worker._index (w_self w) /\
  Worker.available (Worker.reset (w_self w)) = true /\
  ((forall it, EvIndex j it ∉ trace s) ->
   msg !! "index" = Some (PyInt (-1))) /\
  (forall later it earlier,
     trace s = later ++ EvIndex j it :: earlier ->
     (forall it', EvIndex j it' ∉ later) ->
     msg !! "index" = Some (PyInt (index it))).
Proof.
  intros Hrun Hw Hh. assert (reachable n urls s) as Hr by (by exists ls).
  pose proof (hook_index _ _ _ Hh) as Hi.
  rewrite (index_reachable _ _ _ _ _ Hr Hw) in Hi.
  split_and!; try done.
  - intros Hno. by rewrite last_index_none in Hi.
  - intros later it earlier Ht Hno. by rewrite Ht, last_index_app in Hi.
Qed.

(** The first two downloads of [four_downloads]. *)
Definition two_done : list label :=
  manager 2 ++ manager 8 ++ download_cycle 0 OK ++
  manager 8 ++ download_cycle 0 ERROR.

Lemma stale_row_index_witness :
  Worker.available (Worker.Build true None 1) = true /\
  (<["index" := PyInt 1]>
     (<["status" := PyStr "Downloading 1/5"]> ev_playlist) : gmap string pyval)
    !! "index" = Some (PyInt 1).
Proof.
  destruct (stale_row_index 1 four_items two_done
              (final two_done (__init__ 1 four_items)) 0%nat
              (WThread (Worker.Build true None 1) WWhile) ev_playlist
              (<["index" := PyInt 1]>
                 (<["status" := PyStr "Downloading 1/5"]> ev_playlist)))
    as (_ & _ & _ & _ & H);
    [vm_compute; reflexivity|vm_compute; reflexivity|vm_compute; reflexivity|].
  split; [reflexivity|].
  apply (H [EvReset 0; EvOutcome 0 ERROR] (Item "b" 1)
           [EvAssign 0 (Item "b" 1); EvReset 0; EvOutcome 0 OK;
            EvIndex 0 (Item "a" 0); EvAssign 0 (Item "a" 0)]).
  - vm_compute. reflexivity.
  - intros it' Hin.
    repeat (apply elem_of_cons in Hin as [Hin|Hin]; [discriminate|]).
    by apply elem_of_nil in Hin.
Defined.

(** * Further properties of the module *)

(** ** [active] *)

Lemma jobs_done_busy s : _jobs_done s = true <-> busy s = 0.
Proof.
  unfold _jobs_done, busy. induction (_workers s) as [|w ws IH]; [done|].
  simpl. rewrite andb_true_iff, IH. unfold holds at 2.
  pose proof (tally_bounds holds ws) as Hb.
  assert (0 <= tally holds ws) as Hnn.
  { apply Hb. intros x. unfold holds. destruct (Worker.available _); lia. }
  destruct (Worker.available (w_self w)); split; intros H; try lia; try done.
Qed.

(** The work outstanding as the loop of [active] sees it when it comes to
    worker [i]: the workers from [i] on that hold an assignment, the item
    in the manager's hand, and the list. *)
Definition load (i : nat) (s : state) : Z :=
  tally holds (drop i (_workers s)) + Z.of_nat (length (in_hand s)) +
  Z.of_nat (length (urls_list s)).

Lemma tally_drop_insert f ws i j w w' :
  ws !! j = Some w ->
  tally f (drop i (<[j := w']> ws)) =
  tally f (drop i ws) + (if decide (i <= j)%nat then f w' - f w else 0).
Proof.
  intros Hj. destruct (decide (i <= j)%nat) as [Hle|Hgt].
  - rewrite drop_insert_ge by done.
    rewrite (tally_insert f (drop i ws) (j - i) w w'); [lia|].
    rewrite lookup_drop. by replace (i + (j - i))%nat with j by lia.
  - rewrite drop_insert_lt by lia. lia.
Qed.

Lemma holds_bounds w : 0 <= holds w <= 1.
Proof. unfold holds. destruct (Worker.available _); lia. Qed.

(** No step of another thread adds to the load: an item goes from the list
    to the manager's hand and from there to a worker, and leaves the worker
    when the assignment is cleared. *)
Lemma load_step i l s s' :
  gui_free l = true -> step l s = Some s' -> load i s' <= load i s.
Proof.
  intros Hl H. unfold load, in_hand.
  step_cases H; try done; simpl;
    try (erewrite tally_drop_insert by eassumption);
    rewrite ?E; simpl;
    repeat match goal with
      | |- context [decide ?P] => destruct (decide P)
      end;
    try lia.
  all: try (rewrite E0; simpl).
  all: try match goal with
    | |- context [holds (WThread ?x ?p)] =>
        pose proof (holds_bounds (WThread x p))
    end;
    try match goal with
    | E : _workers _ !! _ = Some ?w |- _ => pose proof (holds_bounds w)
    end; unfold holds in *; simpl in *; try lia.
  all: unfold_worker; destruct (Worker._url (w_self w)); lia.
Qed.

Lemma load_run i ls s s' :
  forallb gui_free ls = true -> run ls s = Some s' -> load i s' <= load i s.
Proof.
  revert s. induction ls as [|l ls IH]; intros s Hall H; simpl in *.
  - simplify_eq. lia.
  - apply andb_true_iff in Hall as [Hl Hall].
    destruct (step l s) as [s1|] eqn:E; [|done].
    pose proof (load_step i _ _ _ Hl E). pose proof (IH _ Hall H). lia.
Qed.

Lemma load_next i s w :
  _workers s !! i = Some w -> load i s = holds w + load (S i) s.
Proof.
  intros H. unfold load. rewrite (drop_S _ _ _ H). simpl. lia.
Qed.

Lemma load_end i s :
  _workers s !! i = None ->
  load i s = Z.of_nat (length (in_hand s)) + Z.of_nat (length (urls_list s)).
Proof.
  intros H. unfold load. apply lookup_ge_None in H.
  by rewrite drop_ge by done.
Qed.

Lemma active_loop_load sched i c s k s' :
  forallb (forallb gui_free) sched = true ->
  active_loop sched i c s = Some (k, s') ->
  Z.of_nat k <= Z.of_nat c + load i s.
Proof.
  revert i c s. induction sched as [|ls sched IH]; intros i c s Hall H;
    simpl in *; [done|].
  apply andb_true_iff in Hall as [Hls Hall].
  destruct (run ls s) as [s1|] eqn:E; simpl in H; [|done].
  pose proof (load_run i _ _ _ Hls E) as Hle.
  destruct (_workers s1 !! i) as [w|] eqn:Ew.
  - apply (IH _ _ _ Hall) in H. rewrite (load_next _ _ _ Ew) in Hle.
    unfold holds in Hle. destruct (Worker.available (w_self w)); lia.
  - simplify_eq. rewrite (load_end _ _ Ew) in Hle. lia.
Qed.

Lemma active_loop_run sched i c s k s' :
  active_loop sched i c s = Some (k, s') ->
  exists ls, run ls s = Some s' /\ (c + length (urls_list s') <= k)%nat /\
    (forallb (forallb gui_free) sched = true -> forallb gui_free ls = true).
Proof.
  revert i c s. induction sched as [|ls sched IH]; intros i c s H;
    simpl in *; [done|].
  destruct (run ls s) as [s1|] eqn:E; simpl in H; [|done].
  destruct (_workers s1 !! i) as [w|] eqn:Ew.
  - apply IH in H as (ls' & Hrun & Hk & Hg). exists (ls ++ ls').
    split_and!.
    + by rewrite run_app, E.
    + destruct (Worker.available (w_self w)); lia.
    + intros Hall. apply andb_true_iff in Hall as [H1 H2].
      rewrite forallb_app, H1. by apply Hg.
  - simplify_eq. exists ls. split_and!; [done|lia|].
    intros Hall. by apply andb_true_iff in Hall as [H1 H2].
Qed.

Lemma active_loop_pool n urls sched i c s k s' :
  reachable n urls s -> (c <= i)%nat -> (i <= n)%nat ->
  active_loop sched i c s = Some (k, s') ->
  (k <= n + length (urls_list s'))%nat.
Proof.
  revert i c s. induction sched as [|ls sched IH]; intros i c s Hr Hc Hi H;
    simpl in *; [done|].
  destruct (run ls s) as [s1|] eqn:E; simpl in H; [|done].
  pose proof (reachable_run _ _ _ _ _ Hr E) as Hr1.
  destruct (_workers s1 !! i) as [w|] eqn:Ew.
  - apply lookup_lt_Some in Ew as Hlt.
    rewrite (workers_length _ _ _ Hr1) in Hlt.
    eapply (IH (S i)); [exact Hr1| |lia|exact H].
    destruct (Worker.available (w_self w)); lia.
  - simplify_eq. lia.
Qed.

(** A call during which no other thread runs. *)
Lemma active_loop_alone ws s i c :
  drop i (_workers s) = ws ->
  active_loop (replicate (S (length ws)) []) i c s =
  Some (c + Z.to_nat (tally holds ws) + length (urls_list s), s)%nat.
Proof.
  revert i c. induction ws as [|w ws IH]; intros i c Hd.
  - simpl. rewrite (proj2 (lookup_ge_None _ _)); [f_equal; f_equal; lia|].
    destruct (decide (length (_workers s) <= i)%nat); [done|].
    apply (f_equal length) in Hd. rewrite length_drop in Hd. simpl in Hd. lia.
  - assert (_workers s !! i = Some w) as Hw.
    { rewrite <- (Nat.add_0_r i), <- lookup_drop, Hd. done. }
    change (replicate (S (length (w :: ws))) [])
      with (@nil label :: replicate (S (length ws)) []).
    cbn [active_loop run mbind option_bind]. rewrite Hw.
    rewrite (IH (S i)).
    2:{ rewrite (drop_S _ _ _ Hw) in Hd. by simplify_eq. }
    f_equal. f_equal. simpl tally.
    pose proof (tally_bounds holds ws holds_bounds).
    unfold holds at 2. destruct (Worker.available (w_self w)); lia.
Qed.

Lemma alone_gui_free k : forallb (forallb gui_free) (replicate k []) = true.
Proof. by induction k. Qed.

(** The pool of three with two items, the manager at line 90.  The loop of
    [active] finds the three workers idle; the manager then hands out both
    items; line 121 finds the list empty. *)
Definition active_late : list (list label) := [[]; []; []; manager 8].

(** X1.  A call of [active()] reads the workers one by one and then the
    list, while the other threads run.  It returns: run with nothing in
    between, the number of workers that hold an assignment plus the length
    of the list.  In general the value is at least the length of the list
    at the return and at most the pool size more; it is never more than the
    work outstanding at the call (assignments held, the item in the
    manager's hand, the list), since no item is counted twice; but it can be
    less than the work outstanding at every moment of the call: 0 with two
    items outstanding throughout. *)
Theorem active_count n urls ls s sched k s' :
  run ls (__init__ n urls) = Some s ->
  active sched s = Some (k, s') ->
  active (replicate (S n) []) s =
    Some ((Z.to_nat (busy s) + length (urls_list s))%nat, s) /\
  (exists ls', run ls' s = Some s' /\ forallb gui_free ls' = true) /\
  (length (urls_list s') <= k <= n + length (urls_list s'))%nat /\
  Z.of_nat k <=
    busy s + Z.of_nat (length (in_hand s)) + Z.of_nat (length (urls_list s)) /\
  (exists s0 s1,
     run (manager 3) (__init__ WORKERS_NUMBER two_items) = Some s0 /\
     active active_late s0 = Some (0%nat, s1) /\
     busy s0 + Z.of_nat (length (urls_list s0)) = 2 /\
     busy s1 + Z.of_nat (length (urls_list s1)) = 2).
Proof.
  intros Hrun H. assert (reachable n urls s) as Hr by (by exists ls).
  unfold active in *. destruct (c_pc s) eqn:Ec; try done.
  destruct (forallb (forallb gui_free) sched) eqn:Eg; [|done].
  split_and!.
  - rewrite alone_gui_free.
    rewrite <- (workers_length _ _ _ Hr) at 1.
    by rewrite (active_loop_alone (_workers s) s 0 0).
  - apply active_loop_run in H as (ls' & H1 & _ & H3). exists ls'. auto.
  - apply active_loop_run in H as (ls' & _ & H2 & _). lia.
  - eapply active_loop_pool in H; [exact H|exact Hr|lia|lia].
  - apply active_loop_load in H; [|done]. unfold load in H.
    rewrite drop_0 in H. unfold busy. lia.
  - eexists _, _. split; [vm_compute; reflexivity|].
    split; [vm_compute; reflexivity|]. by vm_compute.
Qed.

Lemma active_count_witness :
  active (replicate 4 []) (final (manager 3) (__init__ 3 two_items)) =
    Some (2%nat, final (manager 3) (__init__ 3 two_items)) /\
  Z.of_nat 0 <= 2.
Proof.
  destruct (active_count 3 two_items (manager 3)
              (final (manager 3) (__init__ 3 two_items)) active_late 0%nat
              (final (manager 11) (__init__ 3 two_items)))
    as (H1 & _ & _ & H2 & _);
    [vm_compute; reflexivity|vm_compute; reflexivity|].
  split; [exact H1|exact H2].
Defined.

(** ** The workers while the loop runs *)

(** Until the manager leaves its loop it closes no worker: every worker's
    [_running] is true and no worker thread has returned from [run]. *)
Definition alive_ok (s : state) : Prop :=
  leaving (m_pc s) = false ->
  forall j w, _workers s !! j = Some w ->
    Worker._running (w_self w) = true /\ w_pc w <> WExit.

Lemma alive_reachable n urls s : reachable n urls s -> alive_ok s.
Proof.
  revert s. apply reachable_ind.
  - intros _ j w H. by apply lookup_replicate_1 in H as [-> _].
  - intros l s s' _ IH H. unfold alive_ok in *.
    step_cases H; simpl; intros Hl j' w' Hj;
      try (rewrite ?E in IH; simpl in IH); try done;
      upd; simpl; try (by eauto);
      try (match goal with
           | Hw : _workers s !! ?i = Some ?w |- _ =>
               destruct (IH Hl _ _ Hw) as [Hr Hx]; split; try done;
               try congruence
           end).
Qed.

(** ** After the loop *)

Lemma leaving_step l s s' :
  step l s = Some s' -> leaving (m_pc s) = true -> leaving (m_pc s') = true.
Proof.
  intros H Hl. step_cases H; simpl; try done; by rewrite E in Hl.
Qed.

Lemma leaving_run ls s s' :
  run ls s = Some s' -> leaving (m_pc s) = true -> leaving (m_pc s') = true.
Proof.
  revert s. induction ls as [|l ls IH]; intros s H Hl; simpl in H.
  - by simplify_eq.
  - destruct (step l s) as [s1|] eqn:E; [|done].
    eapply IH; [done|]. by eapply leaving_step.
Qed.

(** What [add_url] was given along a schedule. *)
Definition additions (ls : list label) : list item :=
  omap (fun l => match l with LAdd it => Some it | _ => None end) ls.

Lemma late_step l s s' :
  step l s = Some s' -> leaving (m_pc s) = true ->
  dispatched s' = dispatched s /\
  urls_list s' = urls_list s ++ additions [l].
Proof.
  intros H Hl.
  step_cases H; simpl; hist; rewrite ?app_nil_r; try done;
    by rewrite E in Hl.
Qed.

Lemma late_run ls s s' :
  run ls s = Some s' -> leaving (m_pc s) = true ->
  dispatched s' = dispatched s /\
  urls_list s' = urls_list s ++ additions ls.
Proof.
  revert s. induction ls as [|l ls IH]; intros s H Hl; simpl in H.
  - simplify_eq. by rewrite app_nil_r.
  - destruct (step l s) as [s1|] eqn:E; [|done].
    destruct (late_step _ _ _ E Hl) as [H1 H2].
    destruct (IH _ H (leaving_step _ _ _ E Hl)) as [H3 H4].
    split; [congruence|].
    rewrite H4, H2, <- app_assoc. f_equal.
    unfold additions. simpl. by destruct l.
Qed.


(** X2.  An item given to [add_url] once the manager has left its loop is
    appended to the list and stays there: whatever runs afterwards, no
    further item is handed to a worker and the list only grows by the items
    added. *)
Theorem late_additions n urls ls ls' s s' :
  run ls (__init__ n urls) = Some s -> leaving (m_pc s) = true ->
  run ls' s = Some s' ->
  leaving (m_pc s') = true /\
  dispatched s' = dispatched s /\
  urls_list s' = urls_list s ++ additions ls'.
Proof.
  intros _ Hl Hrun. split; [by eapply leaving_run|by eapply late_run].
Qed.

(** No item, one worker; an item is added while the manager closes the
    pool. *)
Definition late_add : list label :=
  [LAdd (Item "z" 9)] ++ manager 2 ++ [LWorker 0] ++ manager 5.

Lemma late_additions_witness :
  m_pc (final late_add (final (manager 7) (__init__ 1 []))) = MDone /\
  urls_list (final late_add (final (manager 7) (__init__ 1 []))) =
    [] ++ [Item "z" 9].
Proof.
  destruct (late_additions 1 [] (manager 7) late_add
              (final (manager 7) (__init__ 1 []))
              (final late_add (final (manager 7) (__init__ 1 []))))
    as (_ & _ & H);
    [vm_compute; reflexivity|vm_compute; reflexivity|vm_compute; reflexivity|].
  split; [vm_compute; reflexivity|exact H].
Defined.

(** ** Dispatch after a stop request *)

(** The workers the for loop of lines 90-92 has still to look at. *)
Definition pass_left (n : nat) (p : mpc) : nat :=
  match p with
  | MFor i | MPop i | MSetUrl i _ => n - i
  | MSetIndex i _ => n - S i
  | _ => 0
  end.

Lemma stopped_step n urls l s s' :
  reachable n urls s -> _running s = false -> step l s = Some s' ->
  (length (dispatched s') + pass_left n (m_pc s') <=
   length (dispatched s) + pass_left n (m_pc s))%nat.
Proof.
  intros Hr Hf H. pose proof (workers_length _ _ _ Hr) as Hlen.
  step_cases H; simpl; hist; rewrite ?length_app; simpl;
    rewrite ?E; simpl; try lia; try congruence.
  match goal with Hw : _workers s !! _ = Some _ |- _ =>
    apply lookup_lt_Some in Hw end.
  lia.
Qed.

Lemma stopped_run n urls ls s s' :
  reachable n urls s -> _running s = false -> run ls s = Some s' ->
  _running s' = false /\
  (length (dispatched s') + pass_left n (m_pc s') <=
   length (dispatched s) + pass_left n (m_pc s))%nat.
Proof.
  revert s. induction ls as [|l ls IH]; intros s Hr Hf H; simpl in H.
  - by simplify_eq.
  - destruct (step l s) as [s1|] eqn:E; [|done].
    assert (_running s1 = false) as Hf1.
    { destruct (_running s1) eqn:E1; [|done].
      by rewrite (running_step _ _ _ E E1) in Hf. }
    destruct (IH s1 (reachable_step _ _ _ _ _ Hr E) Hf1 H) as [H1 H2].
    pose proof (stopped_step _ _ _ _ _ Hr Hf E). split; [done|lia].
Qed.

(** X3.  Once [_running] is false it stays false, and the manager hands out
    at most the items its for loop of lines 90-92 still gets to: one for
    each worker the loop has not yet passed, so at most as many as the pool
    has workers, and none when the manager is not inside that loop. *)
Theorem dispatch_after_stop n urls ls ls' s s' :
  run ls (__init__ n urls) = Some s -> _running s = false ->
  run ls' s = Some s' ->
  _running s' = false /\
  (length (dispatched s') <= length (dispatched s) + pass_left n (m_pc s))%nat /\
  (length (dispatched s') <= length (dispatched s) + n)%nat /\
  (pass_left n (m_pc s) = 0%nat -> dispatched s' = dispatched s).
Proof.
  intros Hrun Hf Hrun'. assert (reachable n urls s) as Hr by (by exists ls).
  destruct (stopped_run _ _ _ _ _ Hr Hf Hrun') as [H1 H2].
  assert (pass_left n (m_pc s) <= n)%nat as Hp.
  { unfold pass_left. destruct (m_pc s); lia. }
  split_and!; [done|lia|lia|].
  intros H0.
  pose proof (fifo_reachable _ _ _ Hr) as Hs.
  pose proof (fifo_reachable _ _ _ (reachable_run _ _ _ _ _ Hr Hrun')) as Hs'.
  assert (exists k, dispatched s' = dispatched s ++ k) as [k Hk].
  { clear -Hrun'. revert s Hrun'.
    induction ls' as [|l ls' IH]; intros s H; simpl in H.
    - simplify_eq. exists []. by rewrite app_nil_r.
    - destruct (step l s) as [s1|] eqn:E; [|done].
      destruct (IH _ H) as [k Hk].
      assert (exists k1, dispatched s1 = dispatched s ++ k1) as [k1 Hk1].
      { step_cases E; hist; eexists; try (symmetry; apply app_nil_r); done. }
      exists (k1 ++ k). by rewrite Hk, Hk1, app_assoc. }
  rewrite Hk in H2. rewrite length_app in H2.
  destruct k; [by rewrite app_nil_r in Hk|simpl in H2; lia].
Qed.

(** One worker and four items; [stop_downloads] is called while the manager
    is at the test of line 91 for the first time. *)
Definition stop_in_for : list label :=
  manager 3 ++ call_stop_downloads 1.

Lemma dispatch_after_stop_witness :
  dispatched (final (manager 4) (final stop_in_for (__init__ 1 four_items))) =
    [Item "a" 0] /\
  (length (dispatched
             (final (manager 4) (final stop_in_for (__init__ 1 four_items))))
   <= 0 + 1)%nat.
Proof.
  destruct (dispatch_after_stop 1 four_items stop_in_for (manager 4)
              (final stop_in_for (__init__ 1 four_items))
              (final (manager 4) (final stop_in_for (__init__ 1 four_items))))
    as (_ & _ & H & _);
    [vm_compute; reflexivity|vm_compute; reflexivity|vm_compute; reflexivity|].
  split; [vm_compute; reflexivity|exact H].
Defined.


(** ** Returned downloads *)

(** 1 for a worker whose download has returned and whose assignment is not
    yet cleared (lines 243-248). *)
Definition returned (w : wthread) : Z :=
  match w_pc w with
  | WRetCode _ | WIncrease | WStore _ | WReset => 1
  | _ => 0
  end.

Lemma returned_reachable n urls s :
  reachable n urls s ->
  Z.of_nat (length (outcomes s)) =
  Z.of_nat (length (completed s)) + tally returned (_workers s).
Proof.
  revert s. apply reachable_ind.
  - unfold __init__, _init_workers. cbn [_workers].
    rewrite tally_replicate. unfold returned. simpl. lia.
  - intros l s s' _ IH H. unfold completed in *.
    step_cases H; simpl; try done; hist; try done;
      try (erewrite tally_insert by eassumption); unfold returned in *; simpl;
      rewrite ?length_app; simpl;
      repeat match goal with E : w_pc _ = _ |- _ => rewrite E end;
      repeat match goal with
        | |- context [if ?b then _ else _] => destruct b
        end;
      lia.
Qed.

Lemma tally_le f g ws :
  (forall j w, ws !! j = Some w -> f w <= g w) -> tally f ws <= tally g ws.
Proof.
  induction ws as [|x ws IH]; intros H; simpl; [lia|].
  pose proof (H 0%nat x eq_refl).
  assert (tally f ws <= tally g ws) by (apply IH; intros j w Hj; exact (H (S j) w Hj)).
  lia.
Qed.

Lemma successes_le l : 0 <= successes l <= Z.of_nat (length l).
Proof. unfold successes. pose proof (length_filter (fun rc => is_success rc = true) l). lia. Qed.

Lemma single_step urls l s s' :
  reachable 1 urls s -> step l s = Some s' -> _successful s <= _successful s'.
Proof.
  intros Hr H. destruct (single_reachable _ _ Hr) as [_ Hv].
  destruct (successful_step _ _ _ H) as [->|(i & w & v & _ & Hw & Hpc & ->)];
    [lia|].
  rewrite (Hv _ _ _ Hw Hpc). lia.
Qed.

Lemma single_run urls ls s s' :
  reachable 1 urls s -> run ls s = Some s' -> _successful s <= _successful s'.
Proof.
  revert s. induction ls as [|l ls IH]; intros s Hr H; simpl in H.
  - simplify_eq. lia.
  - destruct (step l s) as [s1|] eqn:E; [|done].
    pose proof (single_step _ _ _ _ Hr E).
    pose proof (IH s1 (reachable_step _ _ _ _ _ Hr E) H). lia.
Qed.

(** X4.  For every pool, [_successful] is never negative and never more
    than the number of stores of line 83 so far, which is never more than
    the number of OK and ALREADY codes returned; it is 0 only as long as
    there was no store.  A step changes it only by the store of a worker,
    to one more than the value that worker read; a read and a store with no
    step of another thread in between add one.  There are never more
    returned downloads than items handed to workers.  With one worker
    nothing is lost: the counter and what the worker still owes add up to
    the number of successful codes, the counter never decreases, and it is
    that number when the manager's thread has ended.  With three workers
    the counter can go down, from 2 to 1. *)
Theorem successful_bounds n urls ls s :
  run ls (__init__ n urls) = Some s ->
  0 <= _successful s <= stored s /\
  stored s <= successes (outcomes s) <= Z.of_nat (length (outcomes s)) /\
  (_successful s = 0 <-> stored s = 0) /\
  (length (outcomes s) <= length (dispatched s))%nat /\
  (forall l s', step l s = Some s' ->
     _successful s' = _successful s \/
     exists i w v, l = LWorker i /\ _workers s !! i = Some w /\
                   w_pc w = WStore v /\ 0 <= v <= stored s /\
                   _successful s' = v + 1) /\
  (forall i w s1 s2,
     _workers s !! i = Some w -> w_pc w = WIncrease ->
     step (LWorker i) s = Some s1 -> step (LWorker i) s1 = Some s2 ->
     _successful s2 = _successful s + 1) /\
  (n = 1%nat ->
   _successful s + pending (_workers s) = successes (outcomes s) /\
   (forall ls' s', run ls' s = Some s' -> _successful s <= _successful s') /\
   (m_pc s = MDone -> _successful s = successes (outcomes s))) /\
  (exists s1 s2,
     run overtaking (__init__ WORKERS_NUMBER three_items) = Some s1 /\
     step (LWorker 0) s1 = Some s2 /\
     _successful s1 = 2 /\ _successful s2 = 1).
Proof.
  intros Hrun. assert (reachable n urls s) as Hr by (by exists ls).
  destruct (counter_reachable _ _ _ Hr) as (Hc & Hp & Hv).
  assert (0 <= pending (_workers s) <= Z.of_nat (length (_workers s))) as Hpe.
  { apply tally_bounds. intros w. unfold owed.
    destruct (w_pc w); try lia. destruct (is_success rc); lia. }
  pose proof (successes_le (outcomes s)) as Hle.
  split; [lia|]. split; [unfold stored; lia|]. split; [lia|].
  split; [|split; [|split; [|split]]].
  - pose proof (returned_reachable _ _ _ Hr) as H1.
    pose proof (flight_reachable _ _ _ Hr) as H2.
    destruct (wf_reachable _ _ _ Hr) as [_ Hw].
    assert (tally returned (_workers s) <= busy s).
    { apply tally_le. intros j w Hj. unfold returned, holds.
      specialize (Hw j w Hj). unfold busy_pc in Hw.
      destruct (w_pc w); try (rewrite Hw by done); try lia;
        destruct (Worker.available _); lia. }
    lia.
  - intros l s' H.
    destruct (successful_step _ _ _ H) as [->|(i & w & v & -> & Hw & Hpc & ->)];
      [by left|].
    right. exists i, w, v. split_and!; try done; by apply (Hv _ _ _ Hw Hpc).
  - intros i w s1 s2 Hw Hpc H1 H2.
    by destruct (increase_alone _ _ _ _ _ Hw Hpc H1 H2).
  - intros ->. destruct (single_reachable _ _ Hr) as [Hs _].
    split_and!; [done| |].
    + intros ls' s'. by apply single_run with urls.
    + by apply success_final with urls.
  - eexists _, _. split; [vm_compute; reflexivity|].
    split; [vm_compute; reflexivity|]. by vm_compute.
Qed.

Lemma successful_bounds_witness :
  outcomes (final four_downloads (__init__ 1 four_items)) =
    [OK; ERROR; ALREADY; ERROR] /\
  _successful (final four_downloads (__init__ 1 four_items)) = 2.
Proof.
  destruct (successful_bounds 1 four_items four_downloads
              (final four_downloads (__init__ 1 four_items)))
    as (_ & _ & _ & _ & _ & _ & H & _); [vm_compute; reflexivity|].
  destruct (H eq_refl) as (_ & _ & Hd).
  split; [vm_compute; reflexivity|].
  rewrite Hd by (vm_compute; reflexivity). vm_compute. reflexivity.
Defined.

(** X5.  While the manager is in its loop no worker has been closed:
    every worker's [_running] is true and no worker thread has returned
    from [run], whatever the GUI has called; [stop_downloads] does not end
    the workers, the manager's clean up does. *)
Theorem workers_alive_in_loop n urls ls s j w :
  run ls (__init__ n urls) = Some s -> leaving (m_pc s) = false ->
  _workers s !! j = Some w ->
  Worker._running (w_self w) = true /\ w_pc w <> WExit.
Proof.
  intros Hrun Hl Hj. assert (reachable n urls s) as Hr by (by exists ls).
  by apply (alive_reachable _ _ _ Hr Hl j w).
Qed.

Lemma workers_alive_in_loop_witness :
  _running (final (manager 2 ++ call_stop_downloads 1) (__init__ 1 four_items))
    = false /\
  Worker._running Worker.__init__ = true.
Proof.
  destruct (workers_alive_in_loop 1 four_items
              (manager 2 ++ call_stop_downloads 1)
              (final (manager 2 ++ call_stop_downloads 1) (__init__ 1 four_items))
              0%nat (WThread Worker.__init__ WWhile))
    as (H & _);
    [vm_compute; reflexivity|vm_compute; reflexivity|vm_compute; reflexivity|].
  split; [vm_compute; reflexivity|exact H].
Defined.

(** ** What [finished] means *)

Definition all_idle (s : state) : Prop :=
  forall j w, _workers s !! j = Some w -> Worker.available (w_self w) = true.

(** After a break of the loop with [_running] still true every worker is
    idle, and stays so. *)
Definition natural_ok (s : state) : Prop :=
  match m_pc s with
  | MClose _ | MCloseStop _ | MJoin _ | MElapsed | MSignal =>
      _running s = false \/ all_idle s
  | MEmit sig => sig = "closed" \/ all_idle s
  | MDone => terminal_signals s = ["closed"] \/ all_idle s
  | _ => True
  end.

Lemma all_idle_step l s s' :
  step l s = Some s' -> leaving (m_pc s) = true -> all_idle s -> all_idle s'.
Proof.
  intros H Hl Hi. unfold all_idle in *.
  step_cases H; simpl; try done; try (by rewrite E in Hl);
    intros j' w' Hj; upd; simpl; eauto.
  change (Worker.available (Worker.close (w_self w)))
    with (Worker.available (w_self w)). eauto.
Qed.

Lemma jobs_done_idle s : _jobs_done s = true -> all_idle s.
Proof.
  unfold _jobs_done. rewrite forallb_forall. intros H j w Hj.
  apply H. apply list_elem_of_In. by eapply list_elem_of_lookup_2.
Qed.

Lemma natural_reachable n urls s : reachable n urls s -> natural_ok s.
Proof.
  revert s. apply reachable_ind; [done|].
  intros l s s' Hr IH H.
  pose proof (all_idle_step _ _ _ H) as Hidle.
  pose proof (terminal_reachable _ _ _ Hr) as Ht.
  unfold natural_ok, terminal_ok in *.
  step_cases H; simpl; at_mpc s; try done; simpl in *;
    try (by destruct IH as [?|?]; [left|right; auto]);
    try (by left);
    try (destruct IH as [IH|IH]; [left|by right; auto]; hist;
         by rewrite ?app_nil_r).
  - bools. right. by apply jobs_done_idle.
  - bools. destruct IH as [IH|IH]; [congruence|by right; auto].
  - destruct Ht as [Ht1 Ht2].
    destruct IH as [->|IH]; [left|by right; auto].
    hist. by rewrite Ht2.
Qed.

Lemma tally_zero f ws :
  (forall j w, ws !! j = Some w -> f w = 0) -> tally f ws = 0.
Proof.
  induction ws as [|x ws IH]; intros H; simpl; [done|].
  rewrite (H 0%nat x eq_refl).
  rewrite IH by (intros j w Hj; exact (H (S j) w Hj)). done.
Qed.

Lemma finished_posted n urls s :
  reachable n urls s -> "finished" ∈ signals s ->
  m_pc s = MDone /\ terminal_signals s = ["finished"].
Proof.
  intros Hr Hin.
  assert ("finished" ∈ terminal_signals s) as Hin'.
  { apply list_elem_of_filter. split; [by right|done]. }
  assert (m_pc s = MDone) as Hd.
  { eapply terminal_done; [done|]. intros Hn. rewrite Hn in Hin'.
    by apply elem_of_nil in Hin'. }
  split; [done|].
  pose proof (terminal_reachable _ _ _ Hr) as Ht. unfold terminal_ok in Ht.
  rewrite Hd in Ht. destruct Ht as (sig & _ & Hs). rewrite Hs in *.
  apply list_elem_of_singleton in Hin'. by subst.
Qed.

(** X6.  When [finished] has been posted the manager's thread has ended,
    every worker is idle, every item handed to a worker was downloaded until
    the downloader returned and then cleared, and the items that arrived are
    the items handed out followed by what is still in the list.  Every
    worker that owed a store of line 83 has made it: [_successful] is at
    most the number of OK and ALREADY codes, it is 0 only if there was none,
    and with one worker it is that number. *)
Theorem finished_means_done n urls ls s :
  run ls (__init__ n urls) = Some s -> "finished" ∈ signals s ->
  m_pc s = MDone /\
  terminal_signals s = ["finished"] /\
  busy s = 0 /\
  length (outcomes s) = length (dispatched s) /\
  length (completed s) = length (dispatched s) /\
  stored s = successes (outcomes s) /\
  0 <= _successful s <= successes (outcomes s) /\
  (_successful s = 0 <-> successes (outcomes s) = 0) /\
  (n = 1%nat -> _successful s = successes (outcomes s)) /\
  urls ++ added s = dispatched s ++ urls_list s.
Proof.
  intros Hrun Hin. assert (reachable n urls s) as Hr by (by exists ls).
  destruct (finished_posted _ _ _ Hr Hin) as [Hd Ht].
  pose proof (natural_reachable _ _ _ Hr) as Hn. unfold natural_ok in Hn.
  rewrite Hd, Ht in Hn. destruct Hn as [Hn|Hi]; [done|].
  assert (busy s = 0) as Hb by (by apply jobs_done_busy, jobs_done_all).
  pose proof (flight_reachable _ _ _ Hr) as Hf.
  pose proof (returned_reachable _ _ _ Hr) as Ho.
  rewrite tally_zero in Ho.
  2:{ intros j w Hj.
      assert (decided (m_pc s) = true) as Hdec by (by rewrite Hd).
      destruct (all_joined _ _ _ Hr (or_intror (or_intror Hdec)) j w Hj)
        as (He & _).
      unfold returned. by destruct (w_pc w). }
  pose proof (fifo_reachable _ _ _ Hr) as Hq. unfold in_hand in Hq.
  rewrite Hd in Hq. simpl in Hq.
  destruct (counter_reachable _ _ _ Hr) as (Hc & Hp & _).
  pose proof (stored_final _ _ _ Hr Hd) as Hst.
  split_and!; try done; try lia.
  intros ->. by apply success_final with urls.
Qed.

Lemma finished_means_done_witness :
  length (outcomes (final four_downloads (__init__ 1 four_items))) =
  length (dispatched (final four_downloads (__init__ 1 four_items))).
Proof.
  destruct (finished_means_done 1 four_items four_downloads
              (final four_downloads (__init__ 1 four_items)))
    as (_ & _ & _ & H & _); [vm_compute; reflexivity| |exact H].
  change (signals (final four_downloads (__init__ 1 four_items)))
    with ["finished"]. by left.
Defined.

(** ** A worker thread killed by an exception of the callback *)

Definition raised_ok (s : state) : Prop :=
  forall j w e, _workers s !! j = Some w -> w_pc w = WRaised e ->
    Worker.available (w_self w) = false.

Lemma raised_reachable n urls s : reachable n urls s -> raised_ok s.
Proof.
  revert s. apply reachable_ind.
  - intros j w e H. by apply lookup_replicate_1 in H as [-> _].
  - intros l s s' Hr IH H. destruct (wf_reachable _ _ _ Hr) as [_ Hw].
    unfold raised_ok, workers_ok in *.
    step_cases H; simpl; intros j' w' e' Hj Hp; upd; simpl in *;
      try (by eauto); try congruence;
      unfold Worker.available, Worker.download_index, Worker.close in *;
      simpl; try (by eauto).
    apply (Hw _ _ E0). by rewrite E1.
Qed.

Lemma raised_step l s s' j w e :
  step l s = Some s' -> _workers s !! j = Some w -> w_pc w = WRaised e ->
  exists w', _workers s' !! j = Some w' /\ w_pc w' = WRaised e.
Proof.
  intros H Hj Hp.
  step_cases H; simpl; upd; eauto; congruence.
Qed.

Lemma raised_run ls s s' j w e :
  run ls s = Some s' -> _workers s !! j = Some w -> w_pc w = WRaised e ->
  exists w', _workers s' !! j = Some w' /\ w_pc w' = WRaised e.
Proof.
  revert s w. induction ls as [|l ls IH]; intros s w H Hj Hp; simpl in H.
  - simplify_eq. by exists w.
  - destruct (step l s) as [s1|] eqn:E; [|done].
    destruct (raised_step _ _ _ _ _ _ E Hj Hp) as (w1 & Hj1 & Hp1).
    by eapply IH.
Qed.

(** X7.  A worker thread that an exception of the progress callback has
    killed keeps its assignment for ever: the worker is never available
    again, so the break test of line 96 never passes and [finished] is never
    posted, however the run goes on. *)
Theorem raised_never_finished n urls ls ls' s s' j w e :
  run ls (__init__ n urls) = Some s ->
  _workers s !! j = Some w -> w_pc w = WRaised e ->
  run ls' s = Some s' ->
  (exists w', _workers s' !! j = Some w' /\ w_pc w' = WRaised e /\
              Worker.available (w_self w') = false) /\
  _jobs_done s' = false /\
  "finished" ∉ signals s'.
Proof.
  intros Hrun Hj Hp Hrun'.
  assert (reachable n urls s') as Hr'.
  { eapply reachable_run; [by exists ls|done]. }
  destruct (raised_run _ _ _ _ _ _ Hrun' Hj Hp) as (w' & Hj' & Hp').
  pose proof (raised_reachable _ _ _ Hr' _ _ _ Hj' Hp') as Ha.
  assert (_jobs_done s' = false) as Hjd.
  { destruct (_jobs_done s') eqn:E; [|done].
    apply jobs_done_idle in E. by rewrite (E _ _ Hj') in Ha. }
  split_and!; [by exists w'|done|].
  intros Hin.
  destruct (finished_posted _ _ _ Hr' Hin) as [Hd Ht].
  pose proof (natural_reachable _ _ _ Hr') as Hn. unfold natural_ok in Hn.
  rewrite Hd, Ht in Hn. destruct Hn as [Hn|Hi]; [done|].
  by rewrite (Hi _ _ Hj') in Ha.
Qed.

(** One worker and four items; the callback is given an event without
    playlist size during the first download and the downloader lets the
    exception through. *)
Definition hook_raises : list label :=
  manager 2 ++ manager 8 ++ [LWorker 0; LWorker 0; LWorker 0] ++
  [LHook 0 ev_no_size true].

Lemma raised_never_finished_witness :
  _jobs_done (final (manager 20) (final hook_raises (__init__ 1 four_items)))
    = false /\
  m_pc (final (manager 20) (final hook_raises (__init__ 1 four_items))) = MWhile.
Proof.
  destruct (raised_never_finished 1 four_items hook_raises (manager 20)
              (final hook_raises (__init__ 1 four_items))
              (final (manager 20) (final hook_raises (__init__ 1 four_items)))
              0%nat (WThread (Worker.Build true (Some "a") 0) (WRaised TypeError))
              TypeError)
    as (_ & H & _);
    [vm_compute; reflexivity|vm_compute; reflexivity|reflexivity
    |vm_compute; reflexivity|].
  split; [exact H|vm_compute; reflexivity].
Defined.

(** ** A call of [stop_downloads] *)

Lemma stop_loop k : forall i s,
  c_pc s = CStopFor i -> length (_workers s) = (i + k)%nat ->
  exists s',
    run (replicate (S k) LCaller) s = Some s' /\
    s' = State (urls_list s) (_time_it_took s) (_successful s) (_running s)
           (_workers s) (m_pc s) CIdle (clock s)
           (reverse (EvStopReq <$> seq i k) ++ trace s).
Proof.
  induction k as [|k IH]; intros i s Hc Hlen.
  - simpl. unfold caller_step. rewrite Hc.
    rewrite (lookup_ge_None_2 (_workers s) i) by lia.
    eexists. split; [done|]. done.
  - cbn [replicate run step]. unfold caller_step at 1. rewrite Hc.
    destruct (lookup_lt_is_Some_2 (_workers s) i) as [w Hw]; [lia|].
    rewrite Hw.
    destruct (IH (S i) (with_cpc (CStopFor (S i)) (emit (EvStopReq i) s)))
      as (s' & Hrun & Hs'); [done|simpl; lia|].
    exists s'. split; [exact Hrun|]. rewrite Hs'. simpl.
    rewrite reverse_cons, <- app_assoc. done.
Qed.

(** X8.  A call of [stop_downloads] that runs without another thread in
    between posts [closing], sets [_running] to false and asks the
    downloader of every worker, in the order of the pool, to stop; it
    changes nothing else: the list, the counters, the workers (their
    [_running] and their assignments) and the manager's thread are as
    before. *)
Theorem stop_downloads_call n urls ls s :
  run ls (__init__ n urls) = Some s -> c_pc s = CIdle ->
  exists s',
    run (call_stop_downloads n) s = Some s' /\
    _running s' = false /\ c_pc s' = CIdle /\
    trace s' = reverse (EvStopReq <$> seq 0 n) ++ EvSignal "closing" :: trace s /\
    signals s' = signals s ++ ["closing"] /\
    _workers s' = _workers s /\ urls_list s' = urls_list s /\
    m_pc s' = m_pc s /\ _successful s' = _successful s /\
    _time_it_took s' = _time_it_took s.
Proof.
  intros Hrun Hc. assert (reachable n urls s) as Hr by (by exists ls).
  pose proof (workers_length _ _ _ Hr) as Hlen.
  unfold call_stop_downloads. cbn [run step]. unfold stop_call. rewrite Hc.
  replace (n + 2)%nat with (S (S n)) by lia.
  cbn [replicate run step]. unfold caller_step at 1. cbn [c_pc with_cpc].
  destruct (stop_loop n 0
              (with_cpc (CStopFor 0)
                 (with_running false
                    (with_cpc CStopRunning (_talk_to_gui "closing" s)))))
    as (s' & Hrun' & Hs'); [done|simpl; lia|].
  exists s'. split; [exact Hrun'|]. rewrite Hs'. simpl.
  split_and!; try done.
  unfold signals, history. simpl.
  rewrite reverse_app, reverse_involutive, reverse_cons, !omap_app.
  simpl.
  assert (omap signal_of (EvStopReq <$> seq 0 n) = []) as ->.
  { generalize (seq 0 n). intros l. induction l as [|a l IH]; [done|].
    rewrite fmap_cons. simpl. exact IH. }
  by rewrite app_nil_r.
Qed.

Lemma stop_downloads_call_witness :
  exists s',
    run (call_stop_downloads 3) (final (manager 3) (__init__ 3 four_items)) =
      Some s' /\
    _running s' = false.
Proof.
  destruct (stop_downloads_call 3 four_items (manager 3)
              (final (manager 3) (__init__ 3 four_items)))
    as (s' & H1 & H2 & _);
    [vm_compute; reflexivity|vm_compute; reflexivity|].
  by exists s'.
Defined.

(** ** Errors of the progress callback *)

(** X9.  What [_data_hook] does with a malformed event.  A missing [status]
    key is a KeyError; so is a missing [playlist_index] when the status is
    not None, and a missing [playlist_size] when the position is a string;
    a position or a status that is present and is no string is a TypeError.
    An event whose status is None is forwarded whatever else it holds or
    lacks, and the callback raises nothing but TypeError and the KeyError of
    one of these three keys. *)
Theorem hook_failures self data :
  (data !! "status" = None ->
   Worker._data_hook self data = Raise (KeyError "status")) /\
  (forall st, data !! "status" = Some st -> is_not_None st = true ->
     data !! "playlist_index" = None ->
     Worker._data_hook self data = Raise (KeyError "playlist_index")) /\
  (forall st i, data !! "status" = Some st -> is_not_None st = true ->
     data !! "playlist_index" = Some (PyStr i) ->
     data !! "playlist_size" = None ->
     Worker._data_hook self data = Raise (KeyError "playlist_size")) /\
  (forall st z, data !! "status" = Some st -> is_not_None st = true ->
     data !! "playlist_index" = Some (PyInt z) ->
     Worker._data_hook self data = Raise TypeError) /\
  (forall z i k, data !! "status" = Some (PyInt z) ->
     data !! "playlist_index" = Some (PyStr i) ->
     data !! "playlist_size" = Some (PyStr k) ->
     Worker._data_hook self data = Raise TypeError) /\
  (data !! "status" = Some PyNone ->
   Worker._data_hook self data =
     Ok (<["index" := PyInt (Worker._index self)]> data)) /\
  (forall e, Worker._data_hook self data = Raise e ->
     e = TypeError \/ e = KeyError "status" \/
     e = KeyError "playlist_index" \/ e = KeyError "playlist_size").
Proof.
  unfold Worker._data_hook, Worker.has_playlist, Worker.playlist_info, getitem.
  split_and!.
  - by intros ->.
  - intros st -> Hst ->. simpl. by rewrite Hst.
  - intros st i -> Hst -> ->. simpl. by rewrite Hst.
  - intros st z -> Hst ->. simpl. by rewrite Hst.
  - by intros z i k -> -> ->.
  - by intros ->.
  - intros e.
    destruct (data !! "status") as [st|]; simpl; [|naive_solver].
    destruct (is_not_None st); simpl; [|done].
    destruct (data !! "playlist_index") as [[|i|z]|]; simpl; try naive_solver.
    destruct (data !! "playlist_size") as [[|k|z]|]; simpl; try naive_solver.
    destruct st; simpl; naive_solver.
Qed.

Definition ev_no_keys : gmap string pyval := <["status" := PyNone]> ∅.

Lemma hook_failures_witness :
  Worker._data_hook Worker.__init__ ev_no_keys =
    Ok (<["index" := PyInt (-1)]> ev_no_keys) /\
  Worker._data_hook Worker.__init__ ∅ = Raise (KeyError "status").
Proof.
  split.
  - destruct (hook_failures Worker.__init__ ev_no_keys)
      as (_ & _ & _ & _ & _ & H & _).
    apply H. vm_compute. reflexivity.
  - destruct (hook_failures Worker.__init__ ∅) as (H & _).
    apply H. vm_compute. reflexivity.
Defined.

(** X10.  The callback changes the dictionary it is given (lines 295 and
    301), so what it forwards is the downloader's own dictionary.  Called
    on it a second time, it leaves an event to which it appended nothing as
    it is, and appends the playlist fragment once more to an event to which
    it had appended it. *)
Theorem hook_again self data msg :
  Worker._data_hook self data = Ok msg ->
  (data !! "status" = Some PyNone \/
   (is_Some (data !! "status") /\ data !! "playlist_index" = Some PyNone) ->
   Worker._data_hook self msg = Ok msg) /\
  (forall s i k,
     data !! "status" = Some (PyStr s) ->
     data !! "playlist_index" = Some (PyStr i) ->
     data !! "playlist_size" = Some (PyStr k) ->
     let frag := ((" " +:+ i) +:+ "/") +:+ k in
     msg !! "status" = Some (PyStr (s +:+ frag)) /\
     Worker._data_hook self msg =
       Ok (<["index" := PyInt (Worker._index self)]>
           (<["status" := PyStr ((s +:+ frag) +:+ frag)]> msg))).
Proof.
  intros H. split.
  - intros Hc.
    assert (msg = <["index" := PyInt (Worker._index self)]> data) as ->.
    { destruct Hc as [Hs|[[st Hs] Hi]].
      - rewrite (hook_no_status self _ Hs) in H. by simplify_eq.
      - rewrite (hook_no_position self _ _ Hs Hi) in H. by simplify_eq. }
    destruct Hc as [Hs|[[st Hs] Hi]].
    + rewrite hook_no_status by (by rewrite lookup_insert_ne).
      by rewrite insert_insert_eq.
    + rewrite (hook_no_position _ _ st)
        by (by rewrite lookup_insert_ne).
      by rewrite insert_insert_eq.
  - intros s i k Hs Hi Hk frag.
    rewrite (hook_all_present self _ _ _ _ Hs Hi Hk) in H. simplify_eq.
    split.
    + rewrite lookup_insert_ne by done. apply lookup_insert_eq.
    + apply hook_all_present.
      * rewrite lookup_insert_ne by done. apply lookup_insert_eq.
      * by rewrite !lookup_insert_ne.
      * by rewrite !lookup_insert_ne.
Qed.

Lemma hook_again_witness :
  Worker._data_hook Worker.__init__
    (<["index" := PyInt (-1)]>
       (<["status" := PyStr "Downloading 1/5"]> ev_playlist)) =
  Ok (<["index" := PyInt (-1)]>
        (<["status" := PyStr "Downloading 1/5 1/5"]>
           (<["index" := PyInt (-1)]>
              (<["status" := PyStr "Downloading 1/5"]> ev_playlist)))).
Proof.
  destruct (hook_again Worker.__init__ ev_playlist
              (<["index" := PyInt (-1)]>
                 (<["status" := PyStr "Downloading 1/5"]> ev_playlist)))
    as (_ & H); [vm_compute; reflexivity|].
  destruct (H "Downloading" "1" "5") as (_ & H2);
    [vm_compute; reflexivity|vm_compute; reflexivity|vm_compute; reflexivity|].
  exact H2.
Defined.

(** ** One worker, no call from the GUI: the whole run *)

(** The manager at line 89 and its only worker idle at line 238. *)
Definition at_loop (urls : list item) (t succ idx clk : Z) (tr : list event)
  : state :=
  State urls t succ true [WThread (Worker.Build true None idx) WWhile]
        MWhile CIdle clk tr.

(** The manager hands out the next item, then the worker downloads it and
    the downloader returns the next code; at the end the manager breaks its
    loop, closes the worker, waits for it and posts the signal. *)
Definition sequential (codes : list ret_code) : list label :=
  manager 2 ++
  flat_map (fun rc => manager 8 ++ download_cycle 0 rc) codes ++
  manager 7 ++ [LWorker 0] ++ manager 5.

Lemma cycle_run it rest rc t succ idx clk tr :
  run (manager 8 ++ download_cycle 0 rc) (at_loop (it :: rest) t succ idx clk tr) =
  Some (at_loop rest t (if is_success rc then succ + 1 else succ) (index it) clk
          (EvReset 0 :: EvOutcome 0 rc :: EvIndex 0 it :: EvAssign 0 it :: tr)).
Proof. destruct rc, rest; vm_compute; reflexivity. Qed.

Lemma start_run items :
  run (manager 2) (__init__ 1 items) = Some (at_loop items 0 0 (-1) 0 []).
Proof. vm_compute. reflexivity. Qed.

Lemma finish_run t succ idx clk tr :
  run (manager 7 ++ [LWorker 0] ++ manager 5) (at_loop [] t succ idx clk tr) =
  Some (State [] (clk - t) succ true
          [WThread (Worker.Build false None idx) WExit] MDone CIdle clk
          (EvSignal "finished" :: EvStopReq 0 :: tr)).
Proof. vm_compute. reflexivity. Qed.

Lemma cycles_run : forall items codes t succ idx clk tr,
  length codes = length items ->
  exists succ' idx' tr',
    run (flat_map (fun rc => manager 8 ++ download_cycle 0 rc) codes)
        (at_loop items t succ idx clk tr) =
      Some (at_loop [] t succ' idx' clk tr') /\
    succ' = succ + successes codes /\
    omap signal_of (reverse tr') = omap signal_of (reverse tr) /\
    omap assign_of (reverse tr') = omap assign_of (reverse tr) ++ items /\
    omap outcome_of (reverse tr') = omap outcome_of (reverse tr) ++ codes.
Proof.
  induction items as [|it items IH]; intros [|rc codes] t succ idx clk tr Hlen;
    try done.
  - exists succ, idx, tr. simpl. rewrite !app_nil_r. split_and!; try done.
    unfold successes. simpl. lia.
  - simpl in Hlen.
    destruct (IH codes t (if is_success rc then succ + 1 else succ) (index it)
                clk (EvReset 0 :: EvOutcome 0 rc :: EvIndex 0 it ::
                     EvAssign 0 it :: tr))
      as (succ' & idx' & tr' & Hrun & Hs & H1 & H2 & H3); [lia|].
    exists succ', idx', tr'. split_and!.
    + cbn [flat_map]. rewrite run_app, cycle_run. exact Hrun.
    + rewrite Hs. change (rc :: codes) with ([rc] ++ codes).
      unfold successes. rewrite filter_app, length_app, filter_cons, filter_nil.
      destruct (is_success rc) eqn:E.
      * rewrite decide_True by done. simpl. lia.
      * rewrite decide_False by congruence. simpl. lia.
    + rewrite H1. rewrite !reverse_cons, !omap_app. simpl.
      by rewrite !app_nil_r.
    + rewrite H2. rewrite !reverse_cons, !omap_app. simpl.
      rewrite !app_nil_r, <- app_assoc. done.
    + rewrite H3. rewrite !reverse_cons, !omap_app. simpl.
      rewrite !app_nil_r, <- !app_assoc. done.
Qed.

(** X11.  With one worker and no call from the GUI there is a run, for any
    list of items and any return codes of the downloader, that hands the
    items to the worker in the order of the list, one download after the
    other, empties the list, counts the OK and ALREADY codes in
    [_successful], ends the worker's thread and posts [finished] as its only
    signal. *)
Theorem sequential_run items codes :
  length codes = length items ->
  exists s,
    run (sequential codes) (__init__ 1 items) = Some s /\
    forallb gui_free (sequential codes) = true /\
    m_pc s = MDone /\ signals s = ["finished"] /\
    dispatched s = items /\ outcomes s = codes /\ urls_list s = [] /\
    _successful s = successes codes /\
    (forall j w, _workers s !! j = Some w -> w_pc w = WExit).
Proof.
  intros Hlen.
  destruct (cycles_run items codes 0 0 (-1) 0 [] Hlen)
    as (succ' & idx' & tr' & Hrun & Hs & H1 & H2 & H3).
  eexists. split.
  { unfold sequential. rewrite run_app, start_run.
    cbn [mbind option_bind]. rewrite run_app, Hrun.
    cbn [mbind option_bind]. apply finish_run. }
  split.
  { unfold sequential. clear. rewrite !forallb_app. simpl.
    rewrite andb_true_r. induction codes as [|rc codes IH]; [done|].
    cbn [flat_map]. rewrite !forallb_app, IH.
    unfold download_cycle. by destruct (is_success rc). }
  simpl. unfold signals, dispatched, outcomes, history. simpl.
  rewrite !reverse_cons, !omap_app, H1, H2, H3. simpl.
  split_and!; try done.
  - by rewrite !app_nil_r.
  - by rewrite !app_nil_r.
  - intros [|j] w Hj; simpl in Hj; by simplify_eq.
Qed.

Lemma sequential_run_witness :
  exists s,
    run (sequential [OK; ERROR; ALREADY; ERROR]) (__init__ 1 four_items) = Some s /\
    _successful s = 2.
Proof.
  destruct (sequential_run four_items [OK; ERROR; ALREADY; ERROR])
    as (s & H1 & _ & _ & _ & _ & _ & _ & H2 & _); [reflexivity|].
  exists s. split; [exact H1|exact H2].
Defined.

(** ** The pop of line 92 *)

(** X12.  The manager never pops from an empty list: whenever it is at
    line 92 the list is not empty and the worker it is about to call is
    idle, whatever the GUI and the workers did since the test of line 91;
    the IndexError of [pop] is never raised. *)
Theorem pop_never_fails n urls ls s :
  run ls (__init__ n urls) = Some s ->
  m_pc s <> MRaised /\
  (forall i, m_pc s = MPop i ->
     idle_at s i /\
     exists it rest s',
       urls_list s = it :: rest /\ step LManager s = Some s' /\
       m_pc s' = MSetUrl i it /\ urls_list s' = rest).
Proof.
  intros Hrun. assert (reachable n urls s) as Hr by (by exists ls).
  destruct (wf_reachable _ _ _ Hr) as [Hd _]. unfold dispatch_ok in Hd.
  split.
  - intros Hp. by rewrite Hp in Hd.
  - intros i Hp. rewrite Hp in Hd. destruct Hd as [Hne Hi].
    split; [done|].
    destruct (urls_list s) as [|it rest] eqn:E; [done|].
    exists it, rest. eexists. split; [done|].
    simpl. unfold manager_step. rewrite Hp, E. done.
Qed.

Lemma pop_never_fails_witness :
  m_pc (final (manager 4) (__init__ 1 four_items)) = MPop 0 /\
  m_pc (final (manager 4) (__init__ 1 four_items)) <> MRaised.
Proof.
  destruct (pop_never_fails 1 four_items (manager 4)
              (final (manager 4) (__init__ 1 four_items)))
    as (H & _); [vm_compute; reflexivity|].
  split; [vm_compute; reflexivity|exact H].
Defined.

(** ** Shutting the pool down *)

Definition stopping_ok (s : state) : Prop :=
  match c_pc s with
  | CStopFor _ => _running s = false
  | _ => True
  end.

Lemma stopping_reachable n urls s : reachable n urls s -> stopping_ok s.
Proof.
  revert s. apply reachable_ind; [done|].
  intros l s s' _ IH H. unfold stopping_ok in *.
  step_cases H; simpl; try done; try (by rewrite ?E in IH);
    destruct (c_pc s); done.
Qed.

(** X13.  The pool can always be shut down: from every reachable state,
    whatever the workers are doing, there is a continuation (a call of
    [stop_downloads] if needed, the downloaders returning) in which the
    manager's thread reaches its end, with every worker's thread ended. *)
Theorem shutdown_possible n urls ls s :
  run ls (__init__ n urls) = Some s ->
  exists ls' s',
    run ls' s = Some s' /\ m_pc s' = MDone /\
    (forall j w, _workers s' !! j = Some w -> ended (w_pc w) = true).
Proof.
  intros Hrun. assert (reachable n urls s) as Hr by (by exists ls).
  assert (exists ls0 s0, run ls0 s = Some s0 /\ _running s0 = false)
    as (ls0 & s0 & H0 & Hf).
  { pose proof (stopping_reachable _ _ _ Hr) as Hs. unfold stopping_ok in Hs.
    destruct (c_pc s) eqn:E.
    - exists [LStop; LCaller]. eexists. split; [|shelve].
      simpl. unfold stop_call. rewrite E. simpl. reflexivity.
      Unshelve. done.
    - exists [LCaller]. eexists. split; [|shelve].
      simpl. unfold caller_step. rewrite E. reflexivity.
      Unshelve. done.
    - exists [], s. by split. }
  assert (reachable n urls s0) as Hr0 by (by eapply reachable_run).
  destruct (drive _ _ _ Hr0) as (ls1 & s1 & H1 & Hd & _); [right; by left|].
  exists (ls0 ++ ls1), s1. split_and!; [|done|].
  - rewrite run_app, H0. exact H1.
  - intros j w Hj.
    eapply (all_joined n urls s1); [by eapply reachable_run| |done].
    right; right. by rewrite Hd.
Qed.

Lemma shutdown_possible_witness :
  exists ls' s',
    run ls' (final hook_raises (__init__ 1 four_items)) = Some s' /\
    m_pc s' = MDone.
Proof.
  destruct (shutdown_possible 1 four_items hook_raises
              (final hook_raises (__init__ 1 four_items)))
    as (ls' & s' & H1 & H2 & _); [vm_compute; reflexivity|].
  by exists ls', s'.
Defined.
